(** * play-cli: the project resolution engine of [src/utils.ts]

    A shallow embedding of the directory scanner, the recency sorter, the
    similarity scorer, the fuzzy resolver and the paginator, together with
    the properties stated about them.

    Conventions of the embedding.
    - A JavaScript string is the list of its UTF-16 code units.
    - JavaScript numbers that hold lengths, indices, page numbers and
      millisecond timestamps are integers far below 2^53; the double
      operations applied to them in the source are exact there and they are
      modelled in [nat] or [Z].
    - The similarity score is a genuine double: it is computed with the
      binary64 operations of [SpecFloat] (round to nearest, ties to even).
    - Engine built-ins whose tables are not part of the repository
      ([String.prototype.toLowerCase], [path.join]) are parameters. *)

From Stdlib Require Import ZArith Lia String Ascii SpecFloat.
From stdpp Require Import base option list sorting gmap.

Local Open Scope Z_scope.

(** ** JavaScript strings *)

Abbreviation codeunit := N.
Abbreviation jsstring := (list codeunit).

(** ASCII literals, for examples. *)
Definition js (s : string) : jsstring :=
  map N_of_ascii (list_ascii_of_string s).

(** [s.includes(t)]: [t] occurs in [s] at some position [k]. *)
Definition includes (s t : jsstring) : bool :=
  existsb (fun k => bool_decide (take (length t) (drop k s) = t))
          (seq 0 (S (length s))).

(** White space and line terminators removed by [String.prototype.trim]. *)
Definition isWhiteSpace (c : codeunit) : bool :=
  match c with
  | 9 | 10 | 11 | 12 | 13 | 32 | 160 | 5760
  | 8192 | 8193 | 8194 | 8195 | 8196 | 8197 | 8198 | 8199 | 8200 | 8201 | 8202
  | 8232 | 8233 | 8239 | 8287 | 12288 | 65279 => true
  | _ => false
  end%N.

Fixpoint trimStart (s : jsstring) : jsstring :=
  match s with
  | c :: s' => if isWhiteSpace c then trimStart s' else s
  | [] => []
  end.

Definition trim (s : jsstring) : jsstring :=
  reverse (trimStart (reverse (trimStart s))).

(** A lower-casing for the ASCII range, used to instantiate the parameter
    [toLowerCase] on examples. *)
Definition ascii_toLowerCase (s : jsstring) : jsstring :=
  map (fun c => if (65 <=? c)%N && (c <=? 90)%N then (c + 32)%N else c) s.

(** ** The edit-distance matrix of [calculateSimilarity] *)

Abbreviation matrix := (list (list nat)).

Section Matrix.

(** [matrix[j][i]] (a read outside the matrix never happens; it yields 0
    here). *)
Definition mget (m : matrix) (j i : nat) : nat :=
  default 0%nat (m !! j ≫= (.!! i)).

(** [matrix[j][i] = v] *)
Definition mset (m : matrix) (j i v : nat) : matrix :=
  alter (fun row => <[i := v]> row) j m.

(** [Array(n2 + 1).fill(0).map(() => Array(n1 + 1).fill(0))] *)
Definition zeros (n1 n2 : nat) : matrix :=
  replicate (S n2) (replicate (S n1) 0%nat).

(** [for (let i = 0; i <= s1.length; i++) matrix[0][i] = i] *)
Definition fill_first_row (n1 : nat) (m : matrix) : matrix :=
  foldl (fun m i => mset m 0 i i) m (seq 0 (S n1)).

(** [for (let j = 0; j <= s2.length; j++) matrix[j][0] = j] *)
Definition fill_first_column (n2 : nat) (m : matrix) : matrix :=
  foldl (fun m j => mset m j 0 j) m (seq 0 (S n2)).

Variables s1 s2 : jsstring.

(** The body of the inner loop. *)
Definition cell (j : nat) (m : matrix) (i : nat) : matrix :=
  let cost := if decide (s1 !! (i - 1)%nat = s2 !! (j - 1)%nat) then 0%nat else 1%nat in
  mset m j i
    (Nat.min (mget m j (i - 1) + 1)
       (Nat.min (mget m (j - 1) i + 1)
                (mget m (j - 1) (i - 1) + cost))).

(** [for (let i = 1; i <= s1.length; i++) ...] *)
Definition fill_row (m : matrix) (j : nat) : matrix :=
  foldl (cell j) m (seq 1 (length s1)).

(** [for (let j = 1; j <= s2.length; j++) ...] *)
Definition fill_rows (m : matrix) : matrix :=
  foldl fill_row m (seq 1 (length s2)).

Definition levenshtein_matrix : matrix :=
  fill_rows
    (fill_first_column (length s2)
       (fill_first_row (length s1) (zeros (length s1) (length s2)))).

(** [matrix[s2.length][s1.length]] *)
Definition editDistance : nat :=
  mget levenshtein_matrix (length s2) (length s1).

End Matrix.

(** ** Levenshtein distance, as the specification words it

    An edit script turns the first string into the second with deletions,
    insertions and substitutions of one code unit, each of cost one, and
    free copies; the distance is the cost of a cheapest script. *)

Inductive edits : jsstring -> jsstring -> nat -> Prop :=
| edits_nil : edits [] [] 0
| edits_delete a s t n : edits s t n -> edits (a :: s) t (S n)
| edits_insert b s t n : edits s t n -> edits s (b :: t) (S n)
| edits_substitute a b s t n : edits s t n -> edits (a :: s) (b :: t) (S n)
| edits_copy a s t n : edits s t n -> edits (a :: s) (a :: t) n.

Fixpoint levenshtein (s t : jsstring) : nat :=
  match s with
  | [] => length t
  | a :: s' =>
      (fix against (t : jsstring) : nat :=
         match t with
         | [] => length s
         | b :: t' =>
             Nat.min (levenshtein s' t + 1)
               (Nat.min (against t' + 1)
                  (levenshtein s' t' + (if decide (a = b) then 0 else 1)))
         end) t
  end%nat.

(** The cheapest script has cost [d]. *)
Definition is_edit_distance (s t : jsstring) (d : nat) : Prop :=
  edits s t d /\ forall n, edits s t n -> (d <= n)%nat.

(** The matrix has [n2 + 1] rows of [n1 + 1] cells. *)
Definition shape (n1 n2 : nat) (m : matrix) : Prop :=
  length m = S n2 /\ Forall (fun row => length row = S n1) m.

(** The loop invariant of the fill: row 0, column 0, the rows above [j]
    and the first [k] cells of row [j] hold the distances between the
    prefixes. *)
Definition filled (s1 s2 : jsstring) (j k : nat) (m : matrix) : Prop :=
  shape (length s1) (length s2) m /\
  forall j' i', (j' <= length s2)%nat -> (i' <= length s1)%nat ->
    (j' < j \/ (j' = j /\ i' <= k) \/ i' = 0 \/ j' = 0)%nat ->
    mget m j' i' = levenshtein (take i' s1) (take j' s2).

(** ** Substrings *)

Definition substring (t s : jsstring) : Prop :=
  exists u v, s = u ++ t ++ v.

(** ** JavaScript numbers that are not integers: binary64

    [1], [0.8] and [0.3] are the doubles the literals denote; [0.8] and
    [0.3] are checked below to be the correctly rounded decimals. *)

Definition prec : Z := 53.
Definition emax : Z := 1024.

Abbreviation number := spec_float.

Definition num_of_nat (n : nat) : number :=
  binary_normalize prec emax (Z.of_nat n) 0 false.

Definition num_sub : number -> number -> number := SFsub prec emax.
Definition num_div : number -> number -> number := SFdiv prec emax.

(** [x > y], [x >= y], [x <= y] and [x === y] on doubles *)
Definition num_gt (x y : number) : bool := SFltb y x.
Definition num_ge (x y : number) : bool := SFleb y x.
Definition num_le (x y : number) : bool := SFleb x y.
Definition num_eq (x y : number) : bool := SFeqb x y.

Definition num_0 : number := S754_zero false.
Definition num_1 : number := S754_finite false 4503599627370496 (-52).
Definition num_0_8 : number := S754_finite false 7205759403792794 (-53).
Definition num_0_3 : number := S754_finite false 5404319552844595 (-54).

(** ** [Array.prototype.sort]

    The engine's sort is stable and orders two elements by the sign of the
    number the comparator returns: a positive number puts the second
    argument first. The sign is a [comparison] here ([Gt] positive, [Lt]
    negative, [Eq] zero or NaN). A stable insertion sort stands for the
    engine's algorithm; for a comparator that orders by a key the stable
    sorted arrangement is unique ([stable_descending_unique]). *)

Definition sign_of_Z (z : Z) : comparison := Z.compare z 0.

Definition sign_of_number (v : number) : comparison :=
  match SFcompare v num_0 with
  | Some c => c
  | None => Eq
  end.

Section ArraySort.

Context {A : Type}.
Variable comparefn : A -> A -> comparison.

Fixpoint sort_insert (x : A) (l : list A) : list A :=
  match l with
  | [] => [x]
  | y :: l' =>
      match comparefn x y with
      | Gt => y :: sort_insert x l'
      | _ => x :: l
      end
  end.

Definition Array_sort (l : list A) : list A := foldr sort_insert [] l.

End ArraySort.

(** Larger keys first. *)
Definition descending {A} (key : A -> Z) (a b : A) : Prop := key b <= key a.

(** ** Project records *)

Record ProjectInfo := {
  name : jsstring;
  path : jsstring;
  fullPath : jsstring;
  modifiedTime : Z;   (* [Date.getTime()]: milliseconds since the epoch *)
  relativePath : jsstring
}.

(** ** The recency sorter *)

(** [(a, b) => b.modifiedTime.getTime() - a.modifiedTime.getTime()]: the
    difference of two time values may round as a double, its sign does
    not. *)
Definition byDate (a b : ProjectInfo) : comparison :=
  sign_of_Z (modifiedTime b - modifiedTime a).

(** The value of [[...projects].sort(byDate)]. *)
Definition sortProjectsByDate (projects : list ProjectInfo) : list ProjectInfo :=
  Array_sort byDate projects.

(** ** [getLatestProject] *)

Definition getLatestProject (projects : list ProjectInfo) : option ProjectInfo :=
  if (length projects =? 0)%nat then None
  else match head (sortProjectsByDate projects) with
       | Some p => Some p
       | None => None
       end.

(** ** The similarity scorer and the fuzzy resolver *)

Record ScoredMatch := { project : ProjectInfo; score : number }.

Section Similarity.

(** [String.prototype.toLowerCase] *)
Variable toLowerCase : jsstring -> jsstring.

Definition calculateSimilarity (str1 str2 : jsstring) : number :=
  let s1 := toLowerCase str1 in
  let s2 := toLowerCase str2 in
  if bool_decide (s1 = s2) then num_1
  else if includes s1 s2 || includes s2 s1 then num_0_8
  else
    let distance := editDistance s1 s2 in
    let maxLength := Nat.max (length s1) (length s2) in
    if (maxLength =? 0)%nat then num_1
    else num_sub num_1 (num_div (num_of_nat distance) (num_of_nat maxLength)).

Definition fuzzyMatchProjects (projects : list ProjectInfo)
    (searchTerm : jsstring) : list ScoredMatch :=
  if bool_decide (trim searchTerm = []) then []
  else
    let matches :=
      map (fun p => {| project := p;
                       score := calculateSimilarity (name p) searchTerm |})
          projects in
    Array_sort (fun a b => sign_of_number (num_sub (score b) (score a)))
      (filter (fun m => num_gt (score m) num_0_3 = true) matches).

End Similarity.

(** ** The paginator *)

Record Page (T : Type) := {
  items : list T;
  totalPages : Z;
  currentPage : Z;
  totalItems : Z
}.
Arguments items {T}.
Arguments totalPages {T}.
Arguments currentPage {T}.
Arguments totalItems {T}.

(** [xs.slice(start, end)] for integer bounds: a negative bound counts from
    the end, and both are clipped to the array. *)
Definition slice {T} (xs : list T) (start final : Z) : list T :=
  let len := Z.of_nat (length xs) in
  let from := if start <? 0 then Z.max (len + start) 0 else Z.min start len in
  let to := if final <? 0 then Z.max (len + final) 0 else Z.min final len in
  take (Z.to_nat (to - from)) (drop (Z.to_nat from) xs).

(** [Math.ceil(n / d)] for integers [0 <= n] and [1 <= d]. *)
Definition ceil_div (n d : Z) : Z := (n + d - 1) / d.

(** The page size is an integer [>= 1], as the option is documented; the
    arithmetic of other page sizes (division by zero, fractions) is not
    modelled. *)
Definition paginateResults {T} (its : list T) (page pageSize : Z) : Page T :=
  let totalItems := Z.of_nat (length its) in
  let totalPages := ceil_div totalItems pageSize in
  let currentPage := Z.min (Z.max page 1) totalPages in
  let startIndex := (currentPage - 1) * pageSize in
  let endIndex := startIndex + pageSize in
  {| items := slice its startIndex endIndex;
     totalPages := totalPages;
     currentPage := currentPage;
     totalItems := totalItems |}.

(** [clamp(x, lo, hi)] in the specification's words. *)
Definition clamp (x lo hi : Z) : Z :=
  if x <? lo then lo else if hi <? x then hi else x.

(** ** The directory scanner

    A promise that rejects is [None]; [await] inside the [try] block
    propagates the rejection to the [catch], which returns the empty list.
    [Promise.all] rejects as soon as one of its promises does. *)

Record Dirent := { entry_name : jsstring; isDirectory : bool }.
Record Stats := { mtime : Z }.

Record FileSystem := {
  readdir : jsstring -> option (list Dirent);
  stat : jsstring -> option Stats
}.

Record ProjectDirectory := {
  dir_name : jsstring;
  dir_fullPath : jsstring;
  dir_relativePath : jsstring
}.

Section Scanner.

(** [path.join] *)
Variable join : jsstring -> jsstring -> jsstring.

Definition projectDirectories (projectsDir : jsstring) (entries : list Dirent)
  : list ProjectDirectory :=
  map (fun entry =>
         {| dir_name := entry_name entry;
            dir_fullPath := join projectsDir (entry_name entry);
            dir_relativePath := join (js "Projects") (entry_name entry) |})
      (filter (fun entry => isDirectory entry = true) entries).

Definition withStats (fs : FileSystem) (p : ProjectDirectory)
  : option ProjectInfo :=
  stats ← stat fs (dir_fullPath p);
  Some {| name := dir_name p;
          path := dir_name p;
          fullPath := dir_fullPath p;
          relativePath := dir_relativePath p;
          modifiedTime := mtime stats |}.

Definition getProjectsList (PLAYCLI_PROJECTS_DIR : option jsstring)
    (fs : FileSystem) : list ProjectInfo :=
  match PLAYCLI_PROJECTS_DIR with
  | None | Some [] => []
  | Some projectsDir =>
      match
        entries ← readdir fs projectsDir;
        mapM (withStats fs) (projectDirectories projectsDir entries)
      with
      | Some projectsWithStats => projectsWithStats
      | None => []
      end
  end.

(** The scan the specification describes: an entry whose [stat] fails is
    left out, the others are kept. *)
Definition scan_skipping_failures (projectsDir : jsstring) (fs : FileSystem)
  : list ProjectInfo :=
  match readdir fs projectsDir with
  | Some entries => omap (withStats fs) (projectDirectories projectsDir entries)
  | None => []
  end.

End Scanner.

(** A [path.join] for examples with plain segments. *)
Definition plain_join (a b : jsstring) : jsstring := a ++ js "/" ++ b.

(** ** Arrays as objects: who sees a mutation

    [Array.prototype.sort] sorts the receiver in place and returns it; the
    spread [[...xs]] allocates a new array. *)

Section Store.

Context {A : Type}.

Definition alloc (h : gmap nat (list A)) (l : list A) : nat * gmap nat (list A) :=
  let r := fresh (dom h) in (r, <[r := l]> h).

Definition spread (h : gmap nat (list A)) (r : nat) : option (nat * gmap nat (list A)) :=
  l ← h !! r; Some (alloc h l).

Definition sort_in_place (comparefn : A -> A -> comparison)
    (h : gmap nat (list A)) (r : nat) : option (nat * gmap nat (list A)) :=
  l ← h !! r; Some (r, <[r := Array_sort comparefn l]> h).

End Store.

(** [sortProjectsByDate] on array references. *)
Definition sortProjectsByDate_ref (h : gmap nat (list ProjectInfo)) (projects : nat)
  : option (nat * gmap nat (list ProjectInfo)) :=
  '(copy, h1) ← spread h projects;
  sort_in_place byDate h1 copy.

(** A root with two project directories; the first cannot be stat'd. *)
Definition two_projects_fs : FileSystem :=
  {| readdir := fun d =>
       if bool_decide (d = js "/p")
       then Some [ {| entry_name := js "a"; isDirectory := true |};
                   {| entry_name := js "b"; isDirectory := true |} ]
       else None;
     stat := fun p =>
       if bool_decide (p = js "/p/b") then Some {| mtime := 200 |} else None |}.

(** ** Reading the rounding of [SpecFloat]

    A shifted mantissa is inexact when a round or sticky bit is set. *)
Definition inexact (mrs : shr_record) : bool := shr_r mrs || shr_s mrs.

Definition is_exact (l : location) : bool :=
  match l with loc_Exact => true | _ => false end.

(** [m * 2^e] is [t * 2^e0] or the next double above it, and is
    [t * 2^e0] when nothing was lost. *)
Definition round_spec (t : Z) (inex : bool) (e0 m e : Z) : Prop :=
  2 ^ 52 <= m < 2 ^ 53 /\
  ((e = e0 /\ (m = t \/ (inex = true /\ m = t + 1))) \/
   (e = e0 + 1 /\ inex = true /\ t + 1 = 2 ^ 53 /\ m = 2 ^ 52)).

(** Zero and the normal doubles between [2^-148] and [1], in canonical
    form: the scores are among them. *)
Definition unit_float (x : number) : Prop :=
  x = S754_zero false \/
  exists m e, x = S754_finite false (Z.to_pos m) e /\
    2 ^ 52 <= m < 2 ^ 53 /\ -200 <= e <= -52 /\ (e = -52 -> m = 2 ^ 52).

(** An integer that orders the doubles of the unit interval as their
    values do. *)
Definition rank (x : number) : Z :=
  match x with
  | S754_finite false m e => Zpos m * 2 ^ (e + 200)
  | _ => 0
  end.

(** The largest length of a string (ECMAScript: 2^53 - 1). *)
Definition max_string_length : Z := 2 ^ 53 - 1.

(** The candidates of the specification's scenarios. *)
Definition candidate (n : string) (t : Z) : ProjectInfo :=
  {| name := js n; path := js n; fullPath := plain_join (js "/p") (js n);
     modifiedTime := t; relativePath := plain_join (js "Projects") (js n) |}.

Definition scenario_projects : list ProjectInfo :=
  [ candidate "Sample" 100; candidate "My Test Algorithm" 200; candidate "Another" 50 ].

(** * The rest of [utils.ts], and the commands that use it *)

From stdpp Require Import pretty.

Local Open Scope Z_scope.

(** ** Text *)

(** A line feed. *)
Definition nl : jsstring := [10%N].

(** An integer-valued number inside a template literal: its decimal
    digits. *)
Definition show (z : Z) : jsstring := js (pretty z).

(** [s.split(c)[0]] for a separator of one code unit: what stands before
    its first occurrence. *)
Fixpoint beforeFirst (c : codeunit) (s : jsstring) : jsstring :=
  match s with
  | [] => []
  | x :: s' => if decide (x = c) then [] else x :: beforeFirst c s'
  end.

(** [lines.join('\n')] *)
Fixpoint joinLines (lines : list jsstring) : jsstring :=
  match lines with
  | [] => []
  | [l] => l
  | l :: rest => l ++ nl ++ joinLines rest
  end.

Section Formatting.

(** [Date.prototype.toISOString], on the time value of the date. *)
Variable toISOString : Z -> jsstring.

(** [project.modifiedTime.toISOString().split('T')[0]] *)
Definition modifiedDate (p : ProjectInfo) : jsstring :=
  beforeFirst 84%N (toISOString (modifiedTime p)).

(** [`${project.name} (Modified: ${modifiedDate})`] *)
Definition projectLine (p : ProjectInfo) : jsstring :=
  name p ++ js " (Modified: " ++ modifiedDate p ++ js ")".

Definition formatProjectList (projects : list ProjectInfo) : jsstring :=
  joinLines (map projectLine projects).

(** The line [forEach] appends for the item at [index] of the page. *)
Definition itemLine (currentPage pageSize : Z) (index : nat) (p : ProjectInfo)
  : jsstring :=
  show ((currentPage - 1) * pageSize + Z.of_nat index + 1)
    ++ js ". " ++ projectLine p ++ nl.

(** The first two lines of every listing. *)
Definition listingHeader (totalItems currentPage totalPages : Z) : jsstring :=
  (nl ++ js "=== Projects (" ++ show totalItems ++ js " total) ===" ++ nl)
    ++ (js "Page " ++ show currentPage ++ js " of " ++ show totalPages ++ nl ++ nl).

Definition navigationHint (totalPages : Z) : jsstring :=
  nl ++ js "Use --page <number> to navigate (1-" ++ show totalPages ++ js ")" ++ nl.

(** The parameters default to page 1 and page size 10 when they are
    [undefined] ([None]). *)
Definition formatPaginatedResults (projects : list ProjectInfo)
    (page pageSize : option Z) : jsstring :=
  let page := default 1 page in
  let pageSize := default 10 pageSize in
  let pg := paginateResults projects page pageSize in
  let output := listingHeader (totalItems pg) (currentPage pg) (totalPages pg) in
  if (length (items pg) =? 0)%nat then output ++ js "No projects found." ++ nl
  else
    let output :=
      foldl (fun output '(index, project) =>
               output ++ itemLine (currentPage pg) pageSize index project)
            output (imap pair (items pg)) in
    if 1 <? totalPages pg then output ++ navigationHint (totalPages pg)
    else output.

End Formatting.

(** ** [buildProjectArgs] *)

Definition buildProjectArgs (projectPath : jsstring) (projectArgs : list jsstring)
  : list jsstring :=
  projectPath :: projectArgs.

(** ** The commands of [command.ts]

    A command is modelled by what it writes to the console and, for
    [runCommand], by the process it asks to spawn. The messages are kept
    as events that carry the data the message text is built from. The
    scanner's own [console.error] lines and the handlers of the child
    process's [close] and [error] events are not part of the model. *)


Record RunCommandOptions := {
  latest : option bool;
  projectName : option jsstring;
  args : option (list jsstring)
}.

Inductive Console :=
| error_no_projects                    (* No projects found to run. *)
| error_no_match (q : jsstring)        (* No project found matching q. *)
| log_multiple (q : jsstring)          (* Multiple projects found matching q: *)
| log_alternative (n : Z) (candidate : jsstring) (s : number)
                                       (* n. candidate (s.toFixed(2) match) *)
| log_using_closest (candidate : jsstring)
                                       (* Using the closest match: candidate *)
| error_need_option                    (* Either --latest flag or --project-name must be provided. *)
| log_running (target : jsstring).     (* Running target... *)


(** [spawn(command, args, { stdio: 'inherit', cwd })] *)
Record Spawn := {
  command : jsstring;
  spawn_args : list jsstring;
  cwd : jsstring
}.

(** Truthiness of an optional flag and of an optional string. *)
Definition flag_set (b : option bool) : bool := default false b.

Definition string_set (s : option jsstring) : bool :=
  match s with
  | Some (_ :: _) => true
  | _ => false
  end.

Section Commands.

Variable join : jsstring -> jsstring -> jsstring.
Variable toISOString : Z -> jsstring.
Variable toLowerCase : jsstring -> jsstring.


(** The process [runCommand] starts for a target:
    [spawn('bun', commandArgs, { stdio: 'inherit', cwd: targetProject.fullPath })]. *)
Definition bunProcess (options : RunCommandOptions) (targetProject : ProjectInfo)
  : Spawn :=
  let projectEntryPoint := fullPath targetProject ++ js "/index.ts" in
  let commandArgs := buildProjectArgs projectEntryPoint (default [] (args options)) in
  {| command := js "bun";
     spawn_args := commandArgs;
     cwd := fullPath targetProject |}.

(** The end of [runCommand], once a target is chosen. *)
Definition launch (options : RunCommandOptions) (log : list Console)
    (targetProject : ProjectInfo) : list Console * option Spawn :=
  (log ++ [log_running (name targetProject)],
   Some (bunProcess options targetProject)).

(** The lines printed when more than one project matches: the first five
    matches, numbered from 1. *)
Definition alternatives (q : jsstring) (matches : list ScoredMatch) : list Console :=
  log_multiple q
    :: imap (fun index m =>
               log_alternative (Z.of_nat index + 1) (name (project m)) (score m))
            (slice matches 0 5).

Definition runCommand (PLAYCLI_PROJECTS_DIR : option jsstring) (fs : FileSystem)
    (options : RunCommandOptions) : list Console * option Spawn :=
  let projects := getProjectsList join PLAYCLI_PROJECTS_DIR fs in
  let sortedProjects := sortProjectsByDate projects in
  if flag_set (latest options) then
    match getLatestProject sortedProjects with
    | None => ([error_no_projects], None)
    | Some targetProject => launch options [] targetProject
    end
  else if string_set (projectName options) then
    let q := default [] (projectName options) in
    let matches := fuzzyMatchProjects toLowerCase sortedProjects q in
    match matches with
    | [] => ([error_no_match q], None)
    | best :: _ =>
        let log :=
          if (1 <? length matches)%nat
          then alternatives q matches
                 ++ [log_using_closest (name (project best))]
          else [] in
        launch options log (project best)
    end
  else ([error_need_option], None).

(** [getProjectNames] *)
Definition getProjectNames (PLAYCLI_PROJECTS_DIR : option jsstring)
    (fs : FileSystem) : list jsstring :=
  map name (getProjectsList join PLAYCLI_PROJECTS_DIR fs).

End Commands.

(** ** The argument check of the [run] command ([index.ts])

    The callback returns [true] or throws an [Error] with a message. *)

Record RunArgv := {
  getYargsCompletions : bool;
  argv_latest : bool;                  (* [argv.latest], default [false] *)
  argv_projectName : option jsstring;  (* [argv.projectName] *)
  argv_args : list jsstring            (* [argv.args], default [[]] *)
}.

Inductive Checked := check_true | check_throw (message : string).

Definition runCheck (argv : RunArgv) : Checked :=
  if getYargsCompletions argv then check_true
  else if negb (argv_latest argv) && negb (string_set (argv_projectName argv))
  then check_throw "Either --latest or --project-name must be provided"
  else if argv_latest argv && string_set (argv_projectName argv)
  then check_throw "Cannot use both --latest and --project-name together"
  else check_true.

(** The options the handler of the [run] command passes on. *)
Definition runOptions (argv : RunArgv) : RunCommandOptions :=
  {| latest := Some (argv_latest argv);
     projectName := argv_projectName argv;
     args := Some (argv_args argv) |}.

(** ** When the scan finds nothing

    The paths of [getProjectsList] that end in the empty list: the early
    [return []] on an unset or empty root, the [catch] after a failed
    [readdir] or a failed [stat], and a root without directories. *)

Section NothingScanned.

Variable join : jsstring -> jsstring -> jsstring.


End NothingScanned.

(** ** A projects directory for examples

    The root [/p] holds the three projects of [scenario_projects] and one
    plain file. *)
Definition scenario_entries : list Dirent :=
  [ {| entry_name := js "Sample"; isDirectory := true |};
    {| entry_name := js "notes.txt"; isDirectory := false |};
    {| entry_name := js "My Test Algorithm"; isDirectory := true |};
    {| entry_name := js "Another"; isDirectory := true |} ].

Definition scenario_fs : FileSystem :=
  {| readdir := fun d =>
       if bool_decide (d = js "/p") then Some scenario_entries else None;
     stat := fun p =>
       if bool_decide (p = js "/p/Sample") then Some {| mtime := 100 |}
       else if bool_decide (p = js "/p/My Test Algorithm") then Some {| mtime := 200 |}
       else if bool_decide (p = js "/p/Another") then Some {| mtime := 50 |}
       else None |}.

(** A stand-in for [Date.prototype.toISOString] in examples, where every
    project was modified on the same day. *)
Definition fixed_toISOString (_ : Z) : jsstring := js "2024-05-01T10:00:00.000Z".

(** [play-cli run --project-name alg] *)
Definition scenario_options : RunCommandOptions :=
  {| latest := None; projectName := Some (js "alg"); args := None |}.

(** * Proofs *)

(** ** Facts about edit scripts and the recursive distance *)

Section Levenshtein.

Implicit Types s t : jsstring.

Lemma levenshtein_nil_r s : levenshtein s [] = length s.
Proof. by destruct s. Qed.

Lemma levenshtein_cons a b s t :
  levenshtein (a :: s) (b :: t) =
  Nat.min (levenshtein s (b :: t) + 1)
    (Nat.min (levenshtein (a :: s) t + 1)
       (levenshtein s t + (if decide (a = b) then 0 else 1)))%nat.
Proof. reflexivity. Qed.

Lemma edits_nil_l t : edits [] t (length t).
Proof. induction t; simpl; constructor; done. Qed.

Lemma edits_nil_r s : edits s [] (length s).
Proof. induction s; simpl; constructor; done. Qed.

Lemma levenshtein_edits s t : edits s t (levenshtein s t).
Proof.
  revert t. induction s as [|a s IHs]; intros t.
  { apply edits_nil_l. }
  induction t as [|b t IHt].
  { apply (edits_nil_r (a :: s)). }
  rewrite levenshtein_cons.
  destruct (Nat.min_spec (levenshtein s (b :: t) + 1)
              (Nat.min (levenshtein (a :: s) t + 1)
                 (levenshtein s t + (if decide (a = b) then 0 else 1))))%nat
    as [[_ ->]|[_ ->]].
  { rewrite Nat.add_1_r. by constructor. }
  destruct (Nat.min_spec (levenshtein (a :: s) t + 1)
              (levenshtein s t + (if decide (a = b) then 0 else 1)))%nat
    as [[_ ->]|[_ ->]].
  { rewrite Nat.add_1_r. by constructor. }
  destruct (decide (a = b)) as [->|_].
  - rewrite Nat.add_0_r. by constructor.
  - rewrite Nat.add_1_r. by constructor.
Qed.

Lemma levenshtein_least s t n : edits s t n -> (levenshtein s t <= n)%nat.
Proof.
  induction 1 as [|a s t n _ IH|b s t n _ IH|a b s t n _ IH|a s t n _ IH].
  - done.
  - destruct t as [|b t].
    + rewrite levenshtein_nil_r in *. simpl. lia.
    + rewrite levenshtein_cons. lia.
  - destruct s as [|a s]; [simpl in *; lia|].
    rewrite levenshtein_cons. lia.
  - rewrite levenshtein_cons. destruct (decide (a = b)); lia.
  - rewrite levenshtein_cons. rewrite decide_True by done. lia.
Qed.

Lemma levenshtein_is_edit_distance s t :
  is_edit_distance s t (levenshtein s t).
Proof. split; [apply levenshtein_edits | apply levenshtein_least]. Qed.

Lemma is_edit_distance_unique s t d d' :
  is_edit_distance s t d -> is_edit_distance s t d' -> d = d'.
Proof.
  intros [H1 L1] [H2 L2]. apply L1 in H2. apply L2 in H1. lia.
Qed.

(** Scripts can be read from the right end as well. *)
Lemma edits_delete_last a s t n : edits s t n -> edits (s ++ [a]) t (S n).
Proof.
  induction 1; simpl; try (by constructor).
  apply (edits_delete a [] [] 0), edits_nil.
Qed.

Lemma edits_insert_last b s t n : edits s t n -> edits s (t ++ [b]) (S n).
Proof.
  induction 1; simpl; try (by constructor).
  apply (edits_insert b [] [] 0), edits_nil.
Qed.

Lemma edits_substitute_last a b s t n :
  edits s t n -> edits (s ++ [a]) (t ++ [b]) (S n).
Proof.
  induction 1; simpl; try (by constructor).
  apply (edits_substitute a b [] [] 0), edits_nil.
Qed.

Lemma edits_copy_last a s t n :
  edits s t n -> edits (s ++ [a]) (t ++ [a]) n.
Proof.
  induction 1; simpl; try (by constructor).
  apply (edits_copy a [] [] 0), edits_nil.
Qed.

Lemma edits_reverse s t n : edits s t n -> edits (reverse s) (reverse t) n.
Proof.
  induction 1; rewrite ?reverse_cons.
  - constructor.
  - by apply edits_delete_last.
  - by apply edits_insert_last.
  - by apply edits_substitute_last.
  - by apply edits_copy_last.
Qed.

Lemma edits_swap s t n : edits s t n -> edits t s n.
Proof. induction 1; by constructor. Qed.

Lemma levenshtein_reverse s t :
  levenshtein (reverse s) (reverse t) = levenshtein s t.
Proof.
  apply Nat.le_antisymm.
  - apply levenshtein_least, edits_reverse, levenshtein_edits.
  - rewrite <- (reverse_involutive s), <- (reverse_involutive t) at 1.
    apply levenshtein_least, edits_reverse, levenshtein_edits.
Qed.

Lemma levenshtein_sym s t : levenshtein s t = levenshtein t s.
Proof.
  apply Nat.le_antisymm; apply levenshtein_least, edits_swap, levenshtein_edits.
Qed.

(** The recurrence of the matrix, which extends both strings at the
    right. *)
Lemma levenshtein_snoc a b s t :
  levenshtein (s ++ [a]) (t ++ [b]) =
  Nat.min (levenshtein s (t ++ [b]) + 1)
    (Nat.min (levenshtein (s ++ [a]) t + 1)
       (levenshtein s t + (if decide (a = b) then 0 else 1)))%nat.
Proof.
  rewrite <- (levenshtein_reverse (s ++ [a])), !reverse_snoc, levenshtein_cons.
  rewrite <- (reverse_snoc t b), <- (reverse_snoc s a), !levenshtein_reverse.
  reflexivity.
Qed.

Lemma levenshtein_nil_l t : levenshtein [] t = length t.
Proof. reflexivity. Qed.

Lemma levenshtein_le_max s t :
  (levenshtein s t <= Nat.max (length s) (length t))%nat.
Proof.
  revert t. induction s as [|a s IH]; intros [|b t]; simpl; try lia.
  fold (levenshtein s (b :: t)).
  specialize (IH t). destruct (decide (a = b)); lia.
Qed.

Lemma levenshtein_zero s t : levenshtein s t = 0%nat -> s = t.
Proof.
  revert t. induction s as [|a s IH]; intros [|b t]; simpl; try done.
  fold (levenshtein s (b :: t)). intros H.
  destruct (decide (a = b)) as [->|]; [|lia].
  f_equal. apply IH. lia.
Qed.

End Levenshtein.

(** ** The matrix computes the Levenshtein distance *)

Section MatrixCorrect.

Lemma shape_zeros n1 n2 : shape n1 n2 (zeros n1 n2).
Proof.
  split; [apply length_replicate|].
  apply Forall_replicate, length_replicate.
Qed.

Lemma shape_mset n1 n2 m j i v : shape n1 n2 m -> shape n1 n2 (mset m j i v).
Proof.
  intros [Hl Hr]. split; unfold mset.
  - by rewrite length_alter.
  - apply Forall_alter; [done|]. intros row _ Hrow. by rewrite length_insert.
Qed.

Lemma mget_mset n1 n2 m j i v j' i' :
  shape n1 n2 m -> (j <= n2)%nat -> (i <= n1)%nat ->
  mget (mset m j i v) j' i' =
  if decide (j' = j /\ i' = i) then v else mget m j' i'.
Proof.
  intros [Hl Hr] Hj Hi. unfold mget, mset.
  destruct (decide (j' = j)) as [->|Hne].
  - rewrite list_lookup_alter_eq.
    destruct (lookup_lt_is_Some_2 m j) as [row Hrow]; [lia|].
    rewrite Hrow. simpl.
    assert (length row = S n1) as Hlen.
    { eapply Forall_forall in Hr; [done|]. by eapply list_elem_of_lookup_2. }
    destruct (decide (i' = i)) as [->|Hne].
    + rewrite decide_True by done.
      rewrite list_lookup_insert_eq by lia. done.
    + rewrite decide_False by tauto.
      by rewrite list_lookup_insert_ne.
  - rewrite decide_False by tauto.
    by rewrite list_lookup_alter_ne.
Qed.

Lemma fill_first_row_spec n1 n2 m k :
  shape n1 n2 m -> (k <= S n1)%nat ->
  let m' := foldl (fun m i => mset m 0 i i) m (seq 0 k) in
  shape n1 n2 m' /\
  forall j i, mget m' j i = if decide (j = 0%nat /\ (i < k)%nat) then i else mget m j i.
Proof.
  intros Hm. induction k as [|k IH]; intros Hk m'; subst m'.
  { split; [done|]. intros j i. rewrite decide_False by lia. done. }
  rewrite seq_S, foldl_snoc. destruct IH as [Hs IH]; [lia|].
  split; [by apply shape_mset|].
  intros j i. rewrite (mget_mset n1 n2) by (done || lia).
  rewrite IH. simpl. repeat case_decide; done || lia.
Qed.

Lemma fill_first_column_spec n1 n2 m k :
  shape n1 n2 m -> (k <= S n2)%nat ->
  let m' := foldl (fun m j => mset m j 0 j) m (seq 0 k) in
  shape n1 n2 m' /\
  forall j i, mget m' j i = if decide (i = 0%nat /\ (j < k)%nat) then j else mget m j i.
Proof.
  intros Hm. induction k as [|k IH]; intros Hk m'; subst m'.
  { split; [done|]. intros j i. rewrite decide_False by lia. done. }
  rewrite seq_S, foldl_snoc. destruct IH as [Hs IH]; [lia|].
  split; [by apply shape_mset|].
  intros j i. rewrite (mget_mset n1 n2) by (done || lia).
  rewrite IH. simpl. repeat case_decide; done || lia.
Qed.

Variables s1 s2 : jsstring.

Lemma filled_init :
  filled s1 s2 1 0
    (fill_first_column (length s2)
       (fill_first_row (length s1) (zeros (length s1) (length s2)))).
Proof.
  unfold fill_first_column, fill_first_row.
  destruct (fill_first_row_spec (length s1) (length s2)
              (zeros (length s1) (length s2)) (S (length s1)))
    as [Hs1 Hg1]; [apply shape_zeros|lia|].
  destruct (fill_first_column_spec (length s1) (length s2) _ (S (length s2)) Hs1)
    as [Hs2 Hg2]; [lia|].
  split; [done|]. intros j i Hj Hi Hc.
  rewrite Hg2, Hg1.
  destruct (decide (i = 0%nat)) as [->|Hi0].
  - rewrite decide_True by lia. rewrite take_0. simpl.
    rewrite length_take. lia.
  - rewrite decide_False by lia. assert (j = 0%nat) as -> by lia.
    rewrite decide_True by lia. rewrite take_0, levenshtein_nil_r.
    rewrite length_take. lia.
Qed.

Lemma filled_cell j k m :
  (1 <= j <= length s2)%nat -> (k < length s1)%nat ->
  filled s1 s2 j k m -> filled s1 s2 j (S k) (cell s1 s2 j m (S k)).
Proof.
  intros Hj Hk [Hs Hg]. split; [by apply shape_mset|].
  intros j' i' Hj' Hi' Hc. unfold cell.
  rewrite (mget_mset (length s1) (length s2)) by (done || lia).
  case_decide as Heq; [|apply Hg; lia].
  destruct Heq as [-> ->].
  replace (S k - 1)%nat with k by lia.
  rewrite !Hg by lia.
  destruct (lookup_lt_is_Some_2 s1 k) as [a Ha]; [lia|].
  destruct (lookup_lt_is_Some_2 s2 (j - 1)) as [b Hb]; [lia|].
  rewrite (take_S_r s1 k a) by done.
  replace (take j s2) with (take (j - 1) s2 ++ [b]).
  2:{ rewrite <- (take_S_r s2 (j - 1) b) by done. f_equal. lia. }
  rewrite levenshtein_snoc, Ha, Hb.
  destruct (decide (a = b)) as [->|Hab].
  - by rewrite decide_True.
  - rewrite decide_False; [done|]. congruence.
Qed.

Lemma filled_row j m :
  (1 <= j <= length s2)%nat ->
  filled s1 s2 j 0 m -> filled s1 s2 (S j) 0 (fill_row s1 s2 m j).
Proof.
  intros Hj H0. unfold fill_row.
  assert (forall k, (k <= length s1)%nat ->
            filled s1 s2 j k (foldl (cell s1 s2 j) m (seq 1 k))) as Hk.
  { induction k as [|k IH]; intros Hle; [done|].
    rewrite seq_S, foldl_snoc. apply filled_cell; [done|lia|]. apply IH. lia. }
  destruct (Hk (length s1)) as [Hs Hg]; [done|].
  split; [done|]. intros j' i' Hj' Hi' Hc. apply Hg; lia.
Qed.

Lemma filled_rows m :
  filled s1 s2 1 0 m -> filled s1 s2 (S (length s2)) 0 (fill_rows s1 s2 m).
Proof.
  intros H0. unfold fill_rows.
  assert (forall j, (j <= length s2)%nat ->
            filled s1 s2 (S j) 0 (foldl (fill_row s1 s2) m (seq 1 j))) as Hj.
  { induction j as [|j IH]; intros Hle; [done|].
    rewrite seq_S, foldl_snoc. apply filled_row; [lia|]. apply IH. lia. }
  by apply Hj.
Qed.

Theorem editDistance_levenshtein : editDistance s1 s2 = levenshtein s1 s2.
Proof.
  unfold editDistance, levenshtein_matrix.
  destruct (filled_rows _ filled_init) as [_ Hg].
  rewrite Hg by lia. by rewrite !firstn_all.
Qed.

End MatrixCorrect.

Lemma includes_substring s t : includes s t = true <-> substring t s.
Proof.
  unfold includes, substring. rewrite existsb_exists. split.
  - intros (k & _ & Hk). apply bool_decide_eq_true in Hk.
    exists (take k s), (drop (length t) (drop k s)).
    rewrite <- (take_drop k s) at 1. f_equal.
    rewrite <- (take_drop (length t) (drop k s)) at 1. by rewrite Hk.
  - intros (u & v & ->). exists (length u). split.
    + apply in_seq. rewrite !length_app. lia.
    + apply bool_decide_eq_true.
      rewrite drop_app_length. by rewrite take_app_length.
Qed.

Example num_0_8_literal :
  num_0_8 = num_div (num_of_nat 8) (num_of_nat 10) /\
  Z.abs (10 * 7205759403792794 - 8 * 2 ^ 53) * 2 <= 10.
Proof. split; [reflexivity | vm_compute; discriminate]. Qed.

Example num_0_3_literal :
  num_0_3 = num_div (num_of_nat 3) (num_of_nat 10) /\
  Z.abs (10 * 5404319552844595 - 3 * 2 ^ 54) * 2 <= 10.
Proof. split; [reflexivity | vm_compute; discriminate]. Qed.

Example num_1_literal : num_1 = num_of_nat 1.
Proof. reflexivity. Qed.

Example similarity_exact :
  calculateSimilarity ascii_toLowerCase (js "Sample") (js "sample") = num_1.
Proof. reflexivity. Qed.

Example similarity_substring :
  calculateSimilarity ascii_toLowerCase (js "My Test Algorithm") (js "alg") = num_0_8.
Proof. reflexivity. Qed.

(** [1 - 7/10] is the double above [0.3]: the pair passes the threshold. *)
Example similarity_seven_tenths :
  calculateSimilarity ascii_toLowerCase (js "abcdefghij") (js "abcklmnopq")
  = S754_finite false 5404319552844596 (-54).
Proof. vm_compute. reflexivity. Qed.

(** ** The stable sort *)

Section ArraySortFacts.

Context {A : Type}.
Variable comparefn : A -> A -> comparison.

Lemma sort_insert_perm x l : sort_insert comparefn x l ≡ₚ x :: l.
Proof.
  induction l as [|y l IH]; simpl; [done|].
  destruct (comparefn x y); try done.
  rewrite IH. apply Permutation_swap.
Qed.

Lemma Array_sort_perm l : Array_sort comparefn l ≡ₚ l.
Proof.
  induction l as [|x l IH]; simpl; [done|].
  by rewrite sort_insert_perm, IH.
Qed.

(** The comparator orders by a key, larger keys first, on the elements
    that satisfy [P]. *)
Variable key : A -> Z.
Variable P : A -> Prop.
Hypothesis comparefn_key :
  forall a b, P a -> P b -> comparefn a b = Z.compare (key b) (key a).

Lemma sort_insert_sorted x l :
  P x -> Forall P l ->
  StronglySorted (descending key) l ->
  StronglySorted (descending key) (sort_insert comparefn x l).
Proof.
  intros Hx Hl Hs. induction Hs as [|y l Hs IH Hy]; simpl.
  { repeat constructor. }
  apply Forall_cons in Hl as [Py Hl].
  rewrite comparefn_key by done.
  destruct (Z.compare_spec (key y) (key x)) as [Heq|Hlt|Hgt].
  - constructor; [by constructor|]. constructor; [unfold descending; lia|].
    eapply Forall_impl; [exact Hy|]. unfold descending. intros; simpl in *; lia.
  - constructor; [by constructor|]. constructor; [unfold descending; lia|].
    eapply Forall_impl; [exact Hy|]. unfold descending. intros; simpl in *; lia.
  - constructor; [by apply IH|].
    rewrite sort_insert_perm. constructor; [unfold descending; lia|done].
Qed.

Lemma Array_sort_sorted l :
  Forall P l -> StronglySorted (descending key) (Array_sort comparefn l).
Proof.
  induction 1 as [|x l Hx Hl IH]; simpl; [constructor|].
  apply sort_insert_sorted; [done| |done].
  by rewrite Array_sort_perm.
Qed.

Lemma sort_insert_filter k x l :
  P x -> Forall P l ->
  filter (fun a => key a = k) (sort_insert comparefn x l)
  = filter (fun a => key a = k) (x :: l).
Proof.
  intros Hx. induction 1 as [|y l Py Hl IH]; simpl; [done|].
  rewrite comparefn_key by done.
  destruct (Z.compare_spec (key y) (key x)) as [Heq|Hlt|Hgt]; try done.
  rewrite (filter_cons _ y), IH, !filter_cons.
  destruct (decide (key x = k)), (decide (key y = k)); done || lia.
Qed.

(** Stability: the elements of one key keep their relative order. *)
Lemma Array_sort_stable k l :
  Forall P l ->
  filter (fun a => key a = k) (Array_sort comparefn l)
  = filter (fun a => key a = k) l.
Proof.
  induction 1 as [|x l Hx Hl IH]; simpl; [done|].
  rewrite sort_insert_filter; [|done|by rewrite Array_sort_perm].
  by rewrite !filter_cons, IH.
Qed.

End ArraySortFacts.

Lemma StronglySorted_lookup {A} (R : A -> A -> Prop) l i j a b :
  StronglySorted R l -> (i < j)%nat ->
  l !! i = Some a -> l !! j = Some b -> R a b.
Proof.
  intros Hs. revert i j. induction Hs as [|x l Hs IH Hx]; intros i j Hij Hi Hj.
  { by rewrite lookup_nil in Hi. }
  destruct j as [|j]; [lia|]. destruct i as [|i]; simpl in *.
  - injection Hi as <-. eapply Forall_forall in Hx; [done|].
    by eapply list_elem_of_lookup_2.
  - eapply (IH i j); [lia|done..].
Qed.

Lemma filter_eq_cons_first {A} (Q : A -> Prop) `{!forall a, Decision (Q a)} l p rest :
  filter Q l = p :: rest ->
  exists l1 l2, l = l1 ++ p :: l2 /\ Forall (fun a => ~ Q a) l1.
Proof.
  induction l as [|x l IH]; [done|].
  rewrite filter_cons. destruct (decide (Q x)) as [Hq|Hq].
  - intros [= -> _]. by exists [], l.
  - intros Hf. destruct (IH Hf) as (l1 & l2 & -> & Hl1).
    exists (x :: l1), l2. split; [done|]. by constructor.
Qed.

(** A sorted arrangement that keeps every class of equal keys in its
    order is unique: the result does not depend on the algorithm of the
    engine, provided it is stable. *)
Lemma stable_descending_unique {A} (key : A -> Z) (l1 l2 : list A) :
  StronglySorted (descending key) l1 ->
  StronglySorted (descending key) l2 ->
  (forall k, filter (fun a => key a = k) l1 = filter (fun a => key a = k) l2) ->
  l1 = l2.
Proof.
  intros H1. revert l2. induction H1 as [|x l1 Hs1 IH Hx]; intros l2 H2 Hf.
  - destruct l2 as [|y l2]; [done|].
    specialize (Hf (key y)). rewrite filter_cons, decide_True in Hf by done.
    done.
  - pose proof (Hf (key x)) as Hfx.
    rewrite filter_cons, decide_True in Hfx by done.
    symmetry in Hfx. apply filter_eq_cons_first in Hfx as (l2a & l2b & -> & Hne).
    destruct l2a as [|y l2a].
    + simpl in *. f_equal. apply IH.
      * by apply StronglySorted_inv in H2 as [? _].
      * intros k. specialize (Hf k). rewrite !filter_cons in Hf.
        destruct (decide (key x = k)); [by injection Hf|done].
    + exfalso. apply Forall_cons in Hne as [Hyx _].
      simpl in H2. apply StronglySorted_inv in H2 as [_ Hy].
      assert (key x <= key y) as Hle.
      { eapply Forall_forall in Hy; [exact Hy|].
        apply elem_of_app. right. by left. }
      pose proof (Hf (key y)) as Hfy.
      assert (y ∈ filter (fun a => key a = key y) (x :: l1)) as Hin.
      { rewrite Hfy. apply list_elem_of_filter. split; [done|]. by left. }
      apply list_elem_of_filter in Hin as [_ Hin].
      apply elem_of_cons in Hin as [->|Hin]; [done|].
      eapply Forall_forall in Hx; [|exact Hin]. unfold descending in Hx. lia.
Qed.

(** ** The recency sorter *)

Lemma byDate_key a b :
  True -> True -> byDate a b = Z.compare (modifiedTime b) (modifiedTime a).
Proof.
  intros _ _. unfold byDate, sign_of_Z.
  destruct (Z.compare_spec (modifiedTime b) (modifiedTime a)).
  - apply Z.compare_eq_iff. lia.
  - apply Z.compare_lt_iff. lia.
  - apply Z.compare_gt_iff. lia.
Qed.

Lemma Forall_trivial {A} (l : list A) : Forall (fun _ => True) l.
Proof. by apply Forall_true. Qed.

(** C7 (value part and object part together). The recency sorter returns
    a new array holding the input's records with non-increasing
    [modifiedTime]; records of one timestamp keep their relative order; the
    input array is left as it was, as is every other array of the store. *)
Theorem sortProjectsByDate_stable_descending
    (h : gmap nat (list ProjectInfo)) (projects : nat) (l : list ProjectInfo) :
  h !! projects = Some l ->
  exists sorted h',
    sortProjectsByDate_ref h projects = Some (sorted, h') /\
    sorted <> projects /\
    h !! sorted = None /\
    (forall r, r <> sorted -> h' !! r = h !! r) /\
    h' !! projects = Some l /\
    h' !! sorted = Some (sortProjectsByDate l) /\
    sortProjectsByDate l ≡ₚ l /\
    (forall i j a b, (i < j)%nat ->
       sortProjectsByDate l !! i = Some a ->
       sortProjectsByDate l !! j = Some b ->
       modifiedTime b <= modifiedTime a) /\
    (forall t,
       filter (fun p => modifiedTime p = t) (sortProjectsByDate l)
       = filter (fun p => modifiedTime p = t) l).
Proof.
  intros Hl.
  set (r := fresh (dom h)).
  assert (h !! r = None) as Hfresh.
  { apply not_elem_of_dom. apply is_fresh. }
  assert (r <> projects) as Hne.
  { intros ->. by rewrite Hl in Hfresh. }
  exists r, (<[r := sortProjectsByDate l]> (<[r := l]> h)).
  split.
  { unfold sortProjectsByDate_ref, spread, alloc, sort_in_place.
    rewrite Hl. simpl. fold r. by rewrite lookup_insert_eq. }
  split; [done|]. split; [done|].
  split. { intros r' Hr'. by rewrite !lookup_insert_ne. }
  split. { by rewrite !lookup_insert_ne. }
  split. { by rewrite lookup_insert_eq. }
  split. { apply Array_sort_perm. }
  split.
  - intros i j a b Hij Ha Hb.
    pose proof (Array_sort_sorted byDate modifiedTime (fun _ => True)
                  byDate_key l (Forall_trivial l)) as Hs.
    apply (StronglySorted_lookup _ _ i j a b Hs Hij Ha Hb).
  - intros t. apply (Array_sort_stable byDate modifiedTime (fun _ => True)
                       byDate_key t l (Forall_trivial l)).
Qed.

(** ** The latest project *)

(** C10. [getLatestProject] returns null exactly on the empty list; on a
    non-empty list it returns a record of the list whose [modifiedTime] is
    maximal, and the first such record in input order. *)
Theorem getLatestProject_first_latest (projects : list ProjectInfo) :
  (getLatestProject projects = None <-> projects = []) /\
  (projects <> [] ->
   exists p before after,
     getLatestProject projects = Some p /\
     projects = before ++ p :: after /\
     (forall q, q ∈ projects -> modifiedTime q <= modifiedTime p) /\
     Forall (fun q => modifiedTime q < modifiedTime p) before).
Proof.
  assert (projects <> [] ->
   exists p before after,
     getLatestProject projects = Some p /\
     projects = before ++ p :: after /\
     (forall q, q ∈ projects -> modifiedTime q <= modifiedTime p) /\
     Forall (fun q => modifiedTime q < modifiedTime p) before) as Hne.
  { intros Hne. unfold getLatestProject.
    destruct projects as [|x l] eqn:El; [done|]. rewrite <- El in *.
    replace (length projects =? 0)%nat with false
      by (symmetry; apply Nat.eqb_neq; subst; simpl; lia).
    pose proof (Array_sort_perm byDate projects) as Hperm.
    pose proof (Array_sort_sorted byDate modifiedTime (fun _ => True)
                  byDate_key projects (Forall_trivial projects)) as Hs.
    pose proof (fun t => Array_sort_stable byDate modifiedTime (fun _ => True)
                  byDate_key t projects (Forall_trivial projects)) as Hst.
    fold (sortProjectsByDate projects) in *.
    destruct (sortProjectsByDate projects) as [|p out] eqn:Eo.
    { apply Permutation_nil_l in Hperm. by subst. }
    simpl.
    assert (forall q, q ∈ projects -> modifiedTime q <= modifiedTime p) as Hmax.
    { intros q Hq. rewrite <- Hperm in Hq.
      apply elem_of_cons in Hq as [->|Hq]; [lia|].
      apply StronglySorted_inv in Hs as [_ Hall].
      eapply Forall_forall in Hall; [exact Hall|done]. }
    specialize (Hst (modifiedTime p)).
    rewrite filter_cons, decide_True in Hst by done.
    symmetry in Hst. apply filter_eq_cons_first in Hst as (l1 & l2 & E & Hl1).
    exists p, l1, l2. split; [done|]. split; [done|]. split; [done|].
    apply Forall_forall. intros q Hq.
    assert (modifiedTime q <= modifiedTime p).
    { apply Hmax. rewrite E. apply elem_of_app. by left. }
    eapply Forall_forall in Hl1; [|exact Hq]. simpl in Hl1. lia. }
  split; [|done]. split.
  - intros Hn. destruct projects as [|x l]; [done|].
    destruct Hne as (p & ? & ? & Hp & _); [done|]. congruence.
  - by intros ->.
Qed.

(** ** The paginator *)

Section Paginator.

Context {T : Type}.
Implicit Types its : list T.

Lemma ceil_div_spec n d :
  1 <= d -> 0 <= n -> (ceil_div n d - 1) * d < n <= ceil_div n d * d.
Proof.
  intros Hd Hn. unfold ceil_div.
  pose proof (Z.div_mod (n + d - 1) d ltac:(lia)) as Hdm.
  pose proof (Z.mod_pos_bound (n + d - 1) d ltac:(lia)) as Hmod.
  nia.
Qed.

Lemma ceil_div_0 d : 1 <= d -> ceil_div 0 d = 0.
Proof. intros Hd. unfold ceil_div. apply Z.div_small. lia. Qed.

Lemma ceil_div_pos n d : 1 <= d -> 1 <= n -> 1 <= ceil_div n d.
Proof. intros Hd Hn. pose proof (ceil_div_spec n d Hd ltac:(lia)). nia. Qed.

(** A window that starts at a non-negative index. *)
Lemma slice_window its start count :
  0 <= start -> 0 <= count ->
  slice its start (start + count)
  = take (Z.to_nat count) (drop (Z.to_nat start) its).
Proof.
  intros Hs Hc. unfold slice.
  replace (start <? 0) with false by (symmetry; apply Z.ltb_ge; lia).
  replace (start + count <? 0) with false by (symmetry; apply Z.ltb_ge; lia).
  destruct (Z.le_gt_cases (Z.of_nat (length its)) start) as [Hge|Hlt].
  - rewrite !drop_ge by lia. by rewrite !take_nil.
  - rewrite (Z.min_l start) by lia.
    destruct (Z.le_gt_cases (start + count) (Z.of_nat (length its))) as [Hin|Hout].
    + rewrite Z.min_l by lia. f_equal. lia.
    + rewrite Z.min_r by lia.
      rewrite !take_ge; [done| |]; rewrite length_drop; lia.
Qed.

(** C1 (as the code has it). On the empty sequence, for every page size
    of at least one and every requested page, the items are empty, the
    item count is 0 and the page count is 0: it is the plain ceiling of
    [totalItems / pageSize], with no case of its own for the empty
    sequence. *)
Theorem paginateResults_empty_no_pages (page pageSize : Z) :
  1 <= pageSize ->
  items (paginateResults (@nil T) page pageSize) = [] /\
  totalItems (paginateResults (@nil T) page pageSize) = 0 /\
  totalPages (paginateResults (@nil T) page pageSize) = 0 /\
  totalPages (paginateResults (@nil T) page pageSize)
  = ceil_div (totalItems (paginateResults (@nil T) page pageSize)) pageSize.
Proof.
  intros Hp. unfold paginateResults. simpl.
  rewrite ceil_div_0 by done.
  split; [|done]. unfold slice. by rewrite drop_nil, take_nil.
Qed.

Lemma paginateResults_in_range its k pageSize :
  1 <= pageSize ->
  1 <= k <= ceil_div (Z.of_nat (length its)) pageSize ->
  items (paginateResults its k pageSize)
  = take (Z.to_nat pageSize) (drop (Z.to_nat ((k - 1) * pageSize)) its).
Proof.
  intros Hp Hk. unfold paginateResults. simpl.
  rewrite Z.max_l, Z.min_l by lia.
  apply slice_window; nia.
Qed.

Lemma concat_pages its (m : nat) (p : nat) :
  concat (map (fun k => take p (drop ((k - 1) * p) its)) (seq 1 m))
  = take (m * p) its.
Proof.
  induction m as [|m IH]; [done|].
  rewrite seq_S, map_app, concat_app, IH. simpl.
  rewrite app_nil_r. replace (m - 0)%nat with m by lia.
  rewrite take_take_drop. f_equal. lia.
Qed.

(** C5. For a page size of at least one, the items of pages 1 to
    [totalPages], one after the other, are the input sequence. *)
Theorem paginateResults_pages_partition its (pageSize : Z) :
  1 <= pageSize ->
  concat (map (fun k => items (paginateResults its (Z.of_nat k) pageSize))
            (seq 1 (Z.to_nat (totalPages (paginateResults its 1 pageSize)))))
  = its.
Proof.
  intros Hp.
  change (totalPages (paginateResults its 1 pageSize))
    with (ceil_div (Z.of_nat (length its)) pageSize).
  set (m := ceil_div (Z.of_nat (length its)) pageSize).
  pose proof (ceil_div_spec (Z.of_nat (length its)) pageSize Hp ltac:(lia)) as Hm.
  fold m in Hm.
  assert (0 <= m) as Hm0 by nia.
  transitivity
    (concat (map (fun k => take (Z.to_nat pageSize)
                             (drop ((k - 1) * Z.to_nat pageSize) its))
               (seq 1 (Z.to_nat m)))).
  - f_equal. apply map_ext_in. intros k Hk. apply in_seq in Hk.
    rewrite paginateResults_in_range by (done || fold m; lia).
    do 2 f_equal. nia.
  - rewrite concat_pages. apply take_ge. nia.
Qed.

(** C6. On a non-empty sequence the served page is the requested page
    clamped to [1, totalPages], and the items are the window of
    [pageSize] elements that starts at [(currentPage - 1) * pageSize],
    cut at the end of the sequence. *)
Theorem paginateResults_clamped_window its (page pageSize : Z) :
  its <> [] -> 1 <= pageSize ->
  let pg := paginateResults its page pageSize in
  totalItems pg = Z.of_nat (length its) /\
  (totalPages pg - 1) * pageSize < totalItems pg <= totalPages pg * pageSize /\
  currentPage pg = clamp page 1 (totalPages pg) /\
  1 <= currentPage pg <= totalPages pg /\
  items pg = take (Z.to_nat pageSize)
               (drop (Z.to_nat ((currentPage pg - 1) * pageSize)) its) /\
  (forall i : nat,
     items pg !! i =
     if decide (Z.of_nat i < pageSize)
     then its !! (Z.to_nat ((currentPage pg - 1) * pageSize) + i)%nat
     else None).
Proof.
  intros Hne Hp pg.
  assert (1 <= Z.of_nat (length its)) as Hlen.
  { destruct its; [done|simpl; lia]. }
  pose proof (ceil_div_spec (Z.of_nat (length its)) pageSize Hp ltac:(lia)) as Hspec.
  pose proof (ceil_div_pos _ _ Hp Hlen) as Hpos.
  assert (currentPage pg = clamp page 1 (totalPages pg)) as Hclamp.
  { subst pg. simpl. unfold clamp.
    destruct (Z.ltb_spec page 1);
      [|destruct (Z.ltb_spec (ceil_div (Z.of_nat (length its)) pageSize) page)]; lia. }
  assert (1 <= currentPage pg <= totalPages pg) as Hrange.
  { subst pg. simpl. lia. }
  assert (items pg = take (Z.to_nat pageSize)
               (drop (Z.to_nat ((currentPage pg - 1) * pageSize)) its)) as Hitems.
  { subst pg. unfold paginateResults. simpl. simpl in Hrange.
    apply slice_window; nia. }
  split; [done|]. split; [exact Hspec|]. split; [done|]. split; [done|].
  split; [done|].
  intros i. rewrite Hitems. case_decide as Hi.
  - rewrite lookup_take_lt by lia. by rewrite lookup_drop.
  - rewrite lookup_take_ge by lia. done.
Qed.

End Paginator.

(** C1 (as the specification states it) fails: the scenario "empty
    candidate set, page 3, size 10" reports no page at all, where the
    specification has one page and serves page 1. *)
Lemma paginateResults_empty_scenario :
  paginateResults (@nil ProjectInfo) 3 10
  = {| items := []; totalPages := 0; currentPage := 0; totalItems := 0 |} /\
  totalPages (paginateResults (@nil ProjectInfo) 3 10) <> 1 /\
  currentPage (paginateResults (@nil ProjectInfo) 3 10) <> 1.
Proof. repeat split; discriminate. Qed.

Lemma paginateResults_empty_no_pages_witness :
  1 <= 10 /\ totalPages (paginateResults (@nil ProjectInfo) 3 10) = 0.
Proof.
  assert (1 <= 10) as Hp by lia.
  split; [exact Hp|].
  destruct (paginateResults_empty_no_pages (T := ProjectInfo) 3 10 Hp) as (_ & _ & H & _).
  exact H.
Defined.

Lemma paginateResults_pages_partition_witness :
  1 <= 10 /\
  concat (map (fun k => items (paginateResults (seq 0 25) (Z.of_nat k) 10))
            (seq 1 (Z.to_nat (totalPages (paginateResults (seq 0 25) 1 10)))))
  = seq 0 25.
Proof. split; [lia | apply paginateResults_pages_partition; lia]. Defined.

(** The scenario of the specification: 25 items, page size 10, page 1000. *)
Lemma paginateResults_clamped_window_witness :
  seq 0 25 <> [] /\ 1 <= 10 /\
  currentPage (paginateResults (seq 0 25) 1000 10) = clamp 1000 1 3 /\
  items (paginateResults (seq 0 25) 1000 10)
  = take 10 (drop 20 (seq 0 25)).
Proof.
  assert (seq 0 25 <> []) as Hne by done.
  assert (1 <= 10) as Hp by lia.
  destruct (paginateResults_clamped_window (seq 0 25) 1000 10 Hne Hp)
    as (_ & _ & Hc & _ & Hi & _).
  split; [done|]. split; [done|]. split; [exact Hc | exact Hi].
Defined.

Example paginateResults_scenario :
  paginateResults (seq 0 25) 1000 10
  = {| items := [20; 21; 22; 23; 24]%nat; totalPages := 3;
       currentPage := 3; totalItems := 25 |}.
Proof. reflexivity. Qed.

(** ** The directory scanner *)

Section ScannerFacts.

Variable join : jsstring -> jsstring -> jsstring.

Lemma withStats_None fs p :
  withStats fs p = None <-> stat fs (dir_fullPath p) = None.
Proof. unfold withStats. destruct (stat fs (dir_fullPath p)); simpl; split; done. Qed.

Lemma mapM_Some_omap {A B} (f : A -> option B) l k :
  mapM f l = Some k -> omap f l = k.
Proof.
  revert k. induction l as [|x l IH]; intros k; simpl.
  { by intros [= <-]. }
  destruct (f x) as [y|]; simpl; [|done].
  destruct (mapM f l) as [k'|]; simpl; [|done].
  intros [= <-]. f_equal. by apply IH.
Qed.

(** C2 (as the code has it). The scan is all or nothing: with the root
    set and enumerable, one directory entry whose [stat] fails empties
    the whole result; when every directory entry can be stat'd the
    result holds one record per directory entry, in enumeration order.
    An unset root and a root that cannot be enumerated give the empty
    result. *)
Theorem getProjectsList_all_or_nothing (fs : FileSystem) :
  getProjectsList join None fs = [] /\
  getProjectsList join (Some []) fs = [] /\
  forall projectsDir, projectsDir <> [] ->
    (readdir fs projectsDir = None ->
       getProjectsList join (Some projectsDir) fs = []) /\
    (forall entries, readdir fs projectsDir = Some entries ->
       (Exists (fun p => stat fs (dir_fullPath p) = None)
               (projectDirectories join projectsDir entries) ->
          getProjectsList join (Some projectsDir) fs = []) /\
       (Forall (fun p => is_Some (stat fs (dir_fullPath p)))
               (projectDirectories join projectsDir entries) ->
          getProjectsList join (Some projectsDir) fs
            = scan_skipping_failures join projectsDir fs /\
          map name (getProjectsList join (Some projectsDir) fs)
            = map entry_name (filter (fun e => isDirectory e = true) entries))).
Proof.
  split; [done|]. split; [done|].
  intros projectsDir Hne.
  assert (forall r : option (list ProjectInfo),
            getProjectsList join (Some projectsDir) fs
            = match readdir fs projectsDir ≫=
                      (fun entries => mapM (withStats fs)
                         (projectDirectories join projectsDir entries)) with
              | Some ps => ps | None => [] end) as Hunfold.
  { intros _. destruct projectsDir; [done|reflexivity]. }
  specialize (Hunfold None). split.
  - intros Hrd. rewrite Hunfold, Hrd. done.
  - intros entries Hrd. rewrite Hunfold, Hrd. simpl. split.
    + intros Hex.
      assert (mapM (withStats fs) (projectDirectories join projectsDir entries) = None)
        as ->; [|done].
      apply mapM_None. eapply Exists_impl; [exact Hex|].
      intros p Hp. by apply withStats_None.
    + intros Hall.
      destruct (mapM (withStats fs) (projectDirectories join projectsDir entries))
        as [ps|] eqn:Em.
      2:{ apply mapM_None in Em. apply Exists_exists in Em as (p & Hin & Hp).
          apply withStats_None in Hp.
          eapply Forall_forall in Hall; [|exact Hin].
          rewrite Hp in Hall. by destruct Hall. }
      split.
      * unfold scan_skipping_failures. rewrite Hrd.
        symmetry. by apply mapM_Some_omap.
      * apply mapM_Some in Em. unfold projectDirectories in Em.
        revert Em. generalize (filter (fun e => isDirectory e = true) entries).
        intros l. revert ps. induction l as [|e l IH]; intros ps Hf.
        { by apply Forall2_nil_inv_l in Hf as ->. }
        simpl in Hf. apply Forall2_cons_inv_l in Hf as (y & ps' & Hy & Hf & ->).
        simpl. f_equal; [|by apply IH].
        unfold withStats in Hy. simpl in Hy.
        destruct (stat fs (join projectsDir (entry_name e))); simpl in Hy; [|done].
        by injection Hy as <-.
Qed.

End ScannerFacts.

(** C2 (as the specification states it) fails: the root is enumerated and
    the second directory can be stat'd, yet it is not returned. *)
Lemma getProjectsList_stat_failure_aborts :
  readdir two_projects_fs (js "/p") <> None /\
  stat two_projects_fs (plain_join (js "/p") (js "b")) <> None /\
  getProjectsList plain_join (Some (js "/p")) two_projects_fs = [] /\
  scan_skipping_failures plain_join (js "/p") two_projects_fs
  = [ {| name := js "b"; path := js "b"; fullPath := js "/p/b";
         modifiedTime := 200; relativePath := js "Projects/b" |} ] /\
  getProjectsList plain_join (Some (js "/p")) two_projects_fs
  <> scan_skipping_failures plain_join (js "/p") two_projects_fs.
Proof. vm_compute. repeat split; discriminate. Qed.

Lemma getProjectsList_all_or_nothing_witness :
  js "/p" <> [] /\
  Exists (fun p => stat two_projects_fs (dir_fullPath p) = None)
    (projectDirectories plain_join (js "/p")
       [ {| entry_name := js "a"; isDirectory := true |};
         {| entry_name := js "b"; isDirectory := true |} ]) /\
  getProjectsList plain_join (Some (js "/p")) two_projects_fs = [].
Proof.
  assert (js "/p" <> []) as Hne by done.
  assert (Exists (fun p => stat two_projects_fs (dir_fullPath p) = None)
    (projectDirectories plain_join (js "/p")
       [ {| entry_name := js "a"; isDirectory := true |};
         {| entry_name := js "b"; isDirectory := true |} ])) as Hex.
  { apply Exists_cons_hd. reflexivity. }
  split; [done|]. split; [done|].
  destruct (getProjectsList_all_or_nothing plain_join two_projects_fs)
    as (_ & _ & H).
  destruct (H (js "/p") Hne) as [_ H2].
  destruct (H2 _ eq_refl) as [H3 _].
  exact (H3 Hex).
Defined.

(** ** Binary64 arithmetic on the scores

    Every rounding the scorer performs lands in the normal range, where
    the exponent function of [SpecFloat] is [e - 53]. *)

Lemma digits2_pos_bounds p :
  2 ^ (Zpos (digits2_pos p) - 1) <= Zpos p < 2 ^ Zpos (digits2_pos p).
Proof.
  induction p as [p IH|p IH|]; simpl digits2_pos.
  - rewrite Pos2Z.inj_succ.
    replace (Z.succ (Z.pos (digits2_pos p)) - 1) with (Z.succ (Z.pos (digits2_pos p) - 1)) by lia.
    rewrite !Z.pow_succ_r by lia. lia.
  - rewrite Pos2Z.inj_succ.
    replace (Z.succ (Z.pos (digits2_pos p)) - 1) with (Z.succ (Z.pos (digits2_pos p) - 1)) by lia.
    rewrite !Z.pow_succ_r by lia. lia.
  - simpl. lia.
Qed.

Lemma Zdigits2_bounds m :
  0 < m -> 2 ^ (Zdigits2 m - 1) <= m < 2 ^ Zdigits2 m.
Proof. destruct m; try lia. intros _. apply digits2_pos_bounds. Qed.

Lemma Zdigits2_pos m : 0 < m -> 1 <= Zdigits2 m.
Proof. destruct m; simpl; lia. Qed.

Lemma Zdigits2_unique m d :
  2 ^ (d - 1) <= m < 2 ^ d -> 1 <= d -> Zdigits2 m = d.
Proof.
  intros [Hlo Hhi] Hd.
  assert (0 < m) as Hm.
  { assert (0 < 2 ^ (d - 1)) by (apply Z.pow_pos_nonneg; lia). lia. }
  pose proof (Zdigits2_bounds m Hm) as [Hlo' Hhi'].
  pose proof (Zdigits2_pos m Hm).
  destruct (Z.lt_trichotomy (Zdigits2 m) d) as [Hlt|[Heq|Hgt]]; [|done|].
  - assert (2 ^ Zdigits2 m <= 2 ^ (d - 1)) by (apply Z.pow_le_mono_r; lia). lia.
  - assert (2 ^ d <= 2 ^ (Zdigits2 m - 1)) by (apply Z.pow_le_mono_r; lia). lia.
Qed.

Lemma Zdigits2_le m k : 0 < m -> m < 2 ^ k -> 0 <= k -> Zdigits2 m <= k.
Proof.
  intros Hm Hk Hk0.
  pose proof (Zdigits2_bounds m Hm) as [Hlo _].
  destruct (Z.le_gt_cases (Zdigits2 m) k) as [|Hgt]; [done|].
  assert (2 ^ k <= 2 ^ (Zdigits2 m - 1)) by (apply Z.pow_le_mono_r; lia). lia.
Qed.

(** iter_pos is iteration *)
Lemma iter_pos_nat {A} (f : A -> A) p x :
  SpecFloat.iter_pos f p x = Nat.iter (Pos.to_nat p) f x.
Proof.
  revert x. induction p as [p IH|p IH|]; intros x; simpl SpecFloat.iter_pos.
  - rewrite !IH, Pos2Nat.inj_xI.
    replace (S (2 * Pos.to_nat p))%nat with (Pos.to_nat p + (Pos.to_nat p + 1))%nat by lia.
    rewrite !Nat.iter_add. simpl. done.
  - rewrite !IH, Pos2Nat.inj_xO.
    replace (2 * Pos.to_nat p)%nat with (Pos.to_nat p + Pos.to_nat p)%nat by lia.
    by rewrite Nat.iter_add.
  - done.
Qed.

Lemma shr_1_spec mrs :
  0 <= shr_m mrs ->
  shr_m (shr_1 mrs) = shr_m mrs / 2 /\
  inexact (shr_1 mrs) = negb (shr_m mrs mod 2 =? 0) || inexact mrs.
Proof.
  destruct mrs as [m r s]. unfold inexact. simpl. intros Hm.
  destruct m as [|[p|p|]|p]; simpl shr_m; simpl shr_r; simpl shr_s; try lia.
  - split; [done|]. simpl. done.
  - split; [rewrite Pos2Z.inj_xI; apply Z.div_unique with 1; lia|].
    rewrite Pos2Z.inj_xI.
    replace ((2 * Z.pos p + 1) mod 2) with 1; [done|].
    apply Z.mod_unique with (Z.pos p); lia.
  - split; [rewrite Pos2Z.inj_xO; apply Z.div_unique with 0; lia|].
    rewrite Pos2Z.inj_xO.
    replace ((2 * Z.pos p) mod 2) with 0; [done|].
    apply Z.mod_unique with (Z.pos p); lia.
  - split; [done|]. done.
Qed.

Lemma shr_iter_spec mrs (k : nat) :
  0 <= shr_m mrs ->
  let mrs' := Nat.iter k shr_1 mrs in
  shr_m mrs' = shr_m mrs / 2 ^ Z.of_nat k /\
  inexact mrs' = negb (shr_m mrs mod 2 ^ Z.of_nat k =? 0) || inexact mrs.
Proof.
  intros Hm. induction k as [|k IH]; intros mrs'; subst mrs'.
  { simpl. rewrite Z.div_1_r, Z.mod_1_r. done. }
  simpl Nat.iter. destruct IH as [IHm IHi].
  assert (0 <= shr_m (Nat.iter k shr_1 mrs)) as Hpos.
  { rewrite IHm. apply Z.div_pos; [done|]. apply Z.pow_pos_nonneg; lia. }
  destruct (shr_1_spec _ Hpos) as [H1 H2].
  assert (0 < 2 ^ Z.of_nat k) as Hpow by (apply Z.pow_pos_nonneg; lia).
  rewrite H1, H2, IHm, IHi.
  rewrite Nat2Z.inj_succ, Z.pow_succ_r by lia.
  split.
  - rewrite Z.div_div by lia. f_equal. lia.
  - rewrite (Z.mul_comm 2), Z.rem_mul_r by lia.
    pose proof (Z.mod_pos_bound (shr_m mrs) (2 ^ Z.of_nat k) Hpow).
    pose proof (Z.mod_pos_bound (shr_m mrs / 2 ^ Z.of_nat k) 2 ltac:(lia)).
    destruct (Z.eqb_spec ((shr_m mrs / 2 ^ Z.of_nat k) mod 2) 0) as [E1|E1];
    destruct (Z.eqb_spec (shr_m mrs mod 2 ^ Z.of_nat k) 0) as [E2|E2];
    destruct (Z.eqb_spec (shr_m mrs mod 2 ^ Z.of_nat k + 2 ^ Z.of_nat k * ((shr_m mrs / 2 ^ Z.of_nat k) mod 2)) 0) as [E3|E3];
    simpl; try done; try nia; by destruct (inexact mrs).
Qed.

Lemma fexp_normal x : -1021 <= x -> fexp prec emax x = x - 53.
Proof. unfold fexp, emin, prec, emax. lia. Qed.

Lemma pow52 : 2 ^ 52 = 4503599627370496. Proof. reflexivity. Qed.
Lemma pow53 : 2 ^ 53 = 9007199254740992. Proof. reflexivity. Qed.

Lemma shr_nat r e n :
  0 <= n -> shr r e n = (Nat.iter (Z.to_nat n) shr_1 r, e + n).
Proof.
  intros Hn. destruct n as [|p|p]; [|..|lia]; simpl.
  - by rewrite Z.add_0_r.
  - by rewrite iter_pos_nat.
Qed.

Lemma shr_record_of_loc_m m l : shr_m (shr_record_of_loc m l) = m.
Proof. by destruct l as [|[]]. Qed.

Lemma shr_record_of_loc_inexact m l :
  inexact (shr_record_of_loc m l) = negb (is_exact l).
Proof. by destruct l as [|[]]. Qed.

Lemma round_nearest_even_cases mrs :
  let m := round_nearest_even (shr_m mrs) (loc_of_shr_record mrs) in
  m = shr_m mrs \/ (inexact mrs = true /\ m = shr_m mrs + 1).
Proof.
  destruct mrs as [m [] []]; unfold inexact; simpl; auto.
  destruct (Z.even m); auto.
Qed.

(** The result of shifting: the first [n] bits go to the round and sticky
    bits. *)
Lemma shr_fexp_normal m e l :
  0 < m -> 53 <= Zdigits2 m -> -1021 <= Zdigits2 m + e ->
  let n := Zdigits2 m - 53 in
  exists mrs,
    shr_fexp prec emax m e l = (mrs, e + n) /\
    shr_m mrs = m / 2 ^ n /\
    inexact mrs = negb (m mod 2 ^ n =? 0) || negb (is_exact l) /\
    2 ^ 52 <= m / 2 ^ n < 2 ^ 53.
Proof.
  intros Hm Hd He n. unfold shr_fexp.
  rewrite fexp_normal by done.
  replace (Zdigits2 m + e - 53 - e) with n by (unfold n; lia).
  rewrite shr_nat by (unfold n; lia).
  eexists. split; [reflexivity|].
  destruct (shr_iter_spec (shr_record_of_loc m l) (Z.to_nat n)) as [H1 H2].
  { rewrite shr_record_of_loc_m. lia. }
  rewrite shr_record_of_loc_m, Z2Nat.id in H1, H2 by (unfold n; lia).
  rewrite shr_record_of_loc_inexact in H2.
  split; [done|]. split; [done|].
  pose proof (Zdigits2_bounds m Hm) as [Hlo Hhi].
  assert (0 < 2 ^ n) as Hpow by (apply Z.pow_pos_nonneg; unfold n; lia).
  replace (Zdigits2 m - 1) with (52 + n) in Hlo by (unfold n; lia).
  replace (Zdigits2 m) with (53 + n) in Hhi by (unfold n; lia).
  rewrite Z.pow_add_r in Hlo, Hhi by (unfold n; lia).
  split.
  - apply Z.div_le_lower_bound; lia.
  - apply Z.div_lt_upper_bound; lia.
Qed.

Lemma binary_round_aux_normal sx mx ex lx :
  0 < mx -> 53 <= Zdigits2 mx -> -1021 <= Zdigits2 mx + ex <= 1023 ->
  let n := Zdigits2 mx - 53 in
  exists m e,
    binary_round_aux prec emax sx mx ex lx = S754_finite sx (Z.to_pos m) e /\
    round_spec (mx / 2 ^ n) (negb (mx mod 2 ^ n =? 0) || negb (is_exact lx))
      (ex + n) m e.
Proof.
  intros Hm Hd He n. unfold binary_round_aux.
  destruct (shr_fexp_normal mx ex lx Hm Hd ltac:(lia)) as (mrs & -> & Hmrs & Hin & Ht).
  fold n in Hmrs, Hin, Ht |- *.
  set (t := mx / 2 ^ n) in *.
  pose proof (round_nearest_even_cases mrs) as Hr. simpl in Hr.
  set (m2 := round_nearest_even (shr_m mrs) (loc_of_shr_record mrs)) in *.
  rewrite Hmrs, Hin in Hr.
  pose proof pow52 as P52. pose proof pow53 as P53.
  assert (2 ^ 52 <= m2 <= 2 ^ 53) as Hm2 by lia.
  destruct (Z.eq_dec m2 (2 ^ 53)) as [Heq|Hneq].
  - (* carry into the next binade *)
    assert (Zdigits2 m2 = 54) as Hd2.
    { apply Zdigits2_unique; [|lia]. rewrite Heq.
      change (2 ^ (54 - 1)) with (2 ^ 53). change (2 ^ 54) with 18014398509481984. lia. }
    destruct (shr_fexp_normal m2 (ex + n) loc_Exact) as (mrs2 & -> & Hmrs2 & _ & _);
      [lia|lia|unfold n; lia|].
    rewrite Hmrs2, Hd2. change (54 - 53) with 1. change (2 ^ 1) with 2.
    rewrite Heq. change (2 ^ 53 / 2) with 4503599627370496.
    replace (ex + n + 1 <=? emax - prec) with true
      by (symmetry; apply Z.leb_le; unfold emax, prec, n; lia).
    exists (2 ^ 52), (ex + n + 1). split; [by rewrite P52|].
    split; [lia|]. right. destruct Hr as [Hr|[Hr1 Hr2]]; [lia|].
    repeat split; try done; lia.
  - assert (Zdigits2 m2 = 53) as Hd2.
    { apply Zdigits2_unique; [|lia]. change (2 ^ (53 - 1)) with (2 ^ 52). lia. }
    destruct (shr_fexp_normal m2 (ex + n) loc_Exact) as (mrs2 & -> & Hmrs2 & _ & _);
      [lia|lia|unfold n; lia|].
    rewrite Hmrs2, Hd2. change (53 - 53) with 0. change (2 ^ 0) with 1.
    rewrite Z.div_1_r, Z.add_0_r.
    replace (ex + n <=? emax - prec) with true
      by (symmetry; apply Z.leb_le; unfold emax, prec, n; lia).
    exists m2, (ex + n). split.
    { destruct m2; try lia. done. }
    split; [lia|]. left. split; [done|]. exact Hr.
Qed.

Lemma Pos_iter_xO m d : Zpos (Pos.iter xO m d) = Zpos m * 2 ^ Zpos d.
Proof.
  rewrite <- Z.shiftl_mul_pow2 by lia. simpl.
  apply (Pos.iter_swap_gen _ _ Zpos xO (Z.mul 2)). intros a. done.
Qed.

Lemma shl_align_spec mx ex e' :
  (e' < ex ->
   shl_align mx ex e' = (Z.to_pos (Zpos mx * 2 ^ (ex - e')), e')) /\
  (ex <= e' -> shl_align mx ex e' = (mx, ex)).
Proof.
  unfold shl_align. split; intros H.
  - destruct (e' - ex) as [|d|d] eqn:E; try lia.
    f_equal. replace (ex - e') with (Zpos d) by lia.
    rewrite <- Pos_iter_xO. done.
  - destruct (e' - ex) as [|d|d] eqn:E; try lia; done.
Qed.

Lemma binary_round_normal sx mx ex :
  let P := Zpos (digits2_pos mx) in
  -1021 <= P + ex <= 1023 ->
  exists m e,
    binary_round prec emax sx mx ex = S754_finite sx (Z.to_pos m) e /\
    2 ^ 52 <= m < 2 ^ 53 /\
    ((P <= 53 /\ e = P + ex - 53 /\ m = Zpos mx * 2 ^ (53 - P)) \/
     (53 < P /\
      round_spec (Zpos mx / 2 ^ (P - 53)) (negb (Zpos mx mod 2 ^ (P - 53) =? 0))
        (P + ex - 53) m e)).
Proof.
  intros P HP. unfold binary_round. fold P.
  rewrite fexp_normal by lia.
  pose proof (digits2_pos_bounds mx) as Hb. fold P in Hb.
  pose proof pow52 as P52. pose proof pow53 as P53.
  destruct (Z.lt_ge_cases P 53) as [Hlt|Hge].
  - destruct (shl_align_spec mx ex (P + ex - 53)) as [-> _]; [|lia].
    replace (ex - (P + ex - 53)) with (53 - P) by lia.
    set (mz := Zpos mx * 2 ^ (53 - P)).
    assert (2 ^ 52 <= mz < 2 ^ 53) as Hmz.
    { unfold mz.
      assert (0 < 2 ^ (53 - P)) by (apply Z.pow_pos_nonneg; lia).
      assert (2 ^ (P - 1) * 2 ^ (53 - P) = 2 ^ 52) as E1.
      { rewrite <- Z.pow_add_r by lia. f_equal. lia. }
      assert (2 ^ P * 2 ^ (53 - P) = 2 ^ 53) as E2.
      { rewrite <- Z.pow_add_r by lia. f_equal. lia. }
      nia. }
    assert (Zdigits2 mz = 53) as Hd.
    { apply Zdigits2_unique; [|lia]. change (2 ^ (53 - 1)) with (2 ^ 52). lia. }
    destruct (binary_round_aux_normal sx mz (P + ex - 53) loc_Exact)
      as (m & e & Hr & Hm & Hs); [lia|lia|lia|].
    rewrite Z2Pos.id by lia. rewrite Hr.
    rewrite Hd in Hs. change (53 - 53) with 0 in Hs. change (2 ^ 0) with 1 in Hs.
    rewrite Z.div_1_r, Z.mod_1_r in Hs. simpl in Hs.
    exists m, e. split; [done|]. split; [done|]. left.
    destruct Hs as [[-> [->|[? _]]]|[_ [? _]]]; try done. lia.
  - destruct (shl_align_spec mx ex (P + ex - 53)) as [_ ->]; [|lia].
    destruct (binary_round_aux_normal sx (Zpos mx) ex loc_Exact)
      as (m & e & Hr & Hm & Hs); [lia|simpl; fold P; lia|simpl; fold P; lia|].
    simpl Zdigits2 in Hs. fold P in Hs.
    rewrite Hr. exists m, e. split; [done|]. split; [done|].
    rewrite orb_false_r in Hs.
    destruct (Z.eq_dec P 53) as [E|E].
    + left. rewrite E in *. change (53 - 53) with 0 in *. change (2 ^ 0) with 1 in *.
      rewrite Z.div_1_r, Z.mod_1_r in Hs. simpl in Hs.
      destruct Hs as [[-> [->|[? _]]]|[_ [? _]]]; try done. lia.
    + right. split; [lia|]. split; [done|].
      replace (P + ex - 53) with (ex + (P - 53)) by lia. exact Hs.
Qed.

Lemma binary_round_small p :
  Zpos p < 2 ^ 53 ->
  let P := Zpos (digits2_pos p) in
  binary_round prec emax false p 0
  = S754_finite false (Z.to_pos (Zpos p * 2 ^ (53 - P))) (P - 53) /\
  1 <= P <= 53 /\ 2 ^ 52 <= Zpos p * 2 ^ (53 - P) < 2 ^ 53.
Proof.
  intros Hp P.
  assert (1 <= P <= 53) as HP.
  { split; [unfold P; lia|]. apply (Zdigits2_le (Zpos p)); lia. }
  destruct (binary_round_normal false p 0) as (m & e & Hr & Hm & Hs); [fold P; lia|].
  fold P in Hs. destruct Hs as [(_ & -> & ->)|[? _]]; [|lia].
  rewrite Hr. split; [f_equal; lia|]. done.
Qed.

Lemma is_exact_new_location nb k : is_exact (new_location nb k) = (k =? 0).
Proof.
  unfold new_location, new_location_even, new_location_odd.
  destruct (Z.even nb); destruct (k =? 0); done.
Qed.

Lemma div_eucl_div_mod a b : Z.div_eucl a b = (a / b, a mod b).
Proof. unfold Z.div, Z.modulo. by destruct (Z.div_eucl a b). Qed.

Lemma SFdiv_normal M1 e1 M2 e2 :
  2 ^ 52 <= M1 < 2 ^ 53 -> 2 ^ 52 <= M2 < 2 ^ 53 ->
  -200 <= e1 <= 200 -> -200 <= e2 <= 200 ->
  exists m e,
    SFdiv prec emax (S754_finite false (Z.to_pos M1) e1)
                    (S754_finite false (Z.to_pos M2) e2)
    = S754_finite false (Z.to_pos m) e /\
    2 ^ 52 <= m < 2 ^ 53 /\
    ((M1 < M2 /\ (e = e1 - e2 - 53 \/ (e = e1 - e2 - 52 /\ m = 2 ^ 52))) \/
     (M2 <= M1 /\
      ((e = e1 - e2 - 52 /\ (M1 = M2 -> m = 2 ^ 52)) \/
       (e = e1 - e2 - 51 /\ m = 2 ^ 52 /\ M1 <> M2)))).
Proof.
  intros H1 H2 He1 He2.
  pose proof pow52 as P52. pose proof pow53 as P53.
  unfold SFdiv, SFdiv_core_binary. cbv zeta.
  rewrite !Z2Pos.id by lia.
  assert (Zdigits2 M1 = 53) as ->.
  { apply Zdigits2_unique; [|lia]. change (2 ^ (53 - 1)) with (2 ^ 52). lia. }
  assert (Zdigits2 M2 = 53) as ->.
  { apply Zdigits2_unique; [|lia]. change (2 ^ (53 - 1)) with (2 ^ 52). lia. }
  rewrite fexp_normal by lia.
  rewrite Z.min_l by lia.
  replace (e1 - e2 - (53 + e1 - (53 + e2) - 53)) with 53 by lia.
  cbv beta iota.
  rewrite Z.shiftl_mul_pow2 by lia.
  rewrite div_eucl_div_mod. cbv beta iota.
  set (q := M1 * 2 ^ 53 / M2). set (r := (M1 * 2 ^ 53) mod M2).
  assert (M1 * 2 ^ 53 = M2 * q + r /\ 0 <= r < M2) as [Hq Hr].
  { split; [apply Z.div_mod; lia | apply Z.mod_pos_bound; lia]. }
  assert (2 ^ 52 <= q < 2 ^ 54) as Hqb.
  { change (2 ^ 54) with 18014398509481984. nia. }
  replace (53 + e1 - (53 + e2) - 53) with (e1 - e2 - 53) by lia.
  destruct (Z.lt_ge_cases M1 M2) as [Hlt|Hge].
  - assert (q < 2 ^ 53) as Hq53 by nia.
    assert (Zdigits2 q = 53) as Hd.
    { apply Zdigits2_unique; [|lia]. change (2 ^ (53 - 1)) with (2 ^ 52). lia. }
    destruct (binary_round_aux_normal false q (e1 - e2 - 53) (new_location M2 r))
      as (m & e & Hres & Hm & Hs); [lia|lia|lia|].
    simpl xorb. rewrite Hres. exists m, e. split; [done|]. split; [done|].
    left. split; [done|]. rewrite Hd in Hs.
    destruct Hs as [[-> _]|[-> (_ & _ & ->)]]; [left|right]; lia.
  - assert (2 ^ 53 <= q) as Hq53 by nia.
    assert (Zdigits2 q = 54) as Hd.
    { apply Zdigits2_unique; [|lia]. change (2 ^ (54 - 1)) with (2 ^ 53).
      change (2 ^ 54) with 18014398509481984 in *. lia. }
    destruct (binary_round_aux_normal false q (e1 - e2 - 53) (new_location M2 r))
      as (m & e & Hres & Hm & Hs); [lia|lia|lia|].
    simpl xorb. rewrite Hres. exists m, e. split; [done|]. split; [done|].
    right. split; [done|]. rewrite Hd in Hs.
    change (54 - 53) with 1 in Hs. change (2 ^ 1) with 2 in Hs.
    rewrite is_exact_new_location in Hs.
    destruct Hs as [[-> Hs]|[-> (Hin & _ & ->)]].
    + left. split; [lia|]. intros ->.
      assert (q = 2 ^ 53 /\ r = 0) as [Eq Er] by nia.
      rewrite Eq, Er in Hs. simpl in Hs.
      destruct Hs as [->|[? _]]; done.
    + right. split; [lia|]. split; [done|]. intros ->.
      assert (q = 2 ^ 53 /\ r = 0) as [Eq Er] by nia.
      rewrite Eq, Er in Hin. simpl in Hin. done.
Qed.

Lemma num_of_nat_spec (n : nat) :
  (1 <= n)%nat -> Z.of_nat n < 2 ^ 53 ->
  exists M e, num_of_nat n = S754_finite false (Z.to_pos M) e /\
    2 ^ 52 <= M < 2 ^ 53 /\ -52 <= e <= 0 /\ M = Z.of_nat n * 2 ^ (- e) /\
    2 ^ (e + 52) <= Z.of_nat n < 2 ^ (e + 53).
Proof.
  intros Hn Hb. unfold num_of_nat.
  destruct (Z.of_nat n) as [|p|p] eqn:E; try lia.
  simpl binary_normalize.
  destruct (binary_round_small p Hb) as (-> & HP & HM).
  set (P := Zpos (digits2_pos p)) in *.
  eexists _, _. split; [reflexivity|]. split; [done|]. split; [lia|].
  split.
  - do 2 f_equal. lia.
  - replace (P - 53 + 53) with P by lia.
    replace (P - 53 + 52) with (P - 1) by lia. apply digits2_pos_bounds.
Qed.

Lemma num_of_nat_mono (d m : nat) M1 e1 M2 e2 :
  (d <= m)%nat ->
  M1 = Z.of_nat d * 2 ^ (- e1) -> 2 ^ (e1 + 52) <= Z.of_nat d < 2 ^ (e1 + 53) ->
  M2 = Z.of_nat m * 2 ^ (- e2) -> 2 ^ (e2 + 52) <= Z.of_nat m < 2 ^ (e2 + 53) ->
  -52 <= e1 <= 0 -> -52 <= e2 <= 0 ->
  e1 <= e2 /\ (e1 = e2 -> M1 <= M2).
Proof.
  intros Hdm -> Hd -> Hm He1 He2. split.
  - destruct (Z.le_gt_cases e1 e2) as [|Hgt]; [done|].
    assert (2 ^ (e2 + 53) <= 2 ^ (e1 + 52)) by (apply Z.pow_le_mono_r; lia). lia.
  - intros ->. apply Z.mul_le_mono_nonneg_r; [|lia].
    apply Z.pow_nonneg. lia.
Qed.

Lemma num_div_ratio (d m : nat) :
  (1 <= d <= m)%nat -> Z.of_nat m < 2 ^ 53 ->
  exists mq eq,
    num_div (num_of_nat d) (num_of_nat m) = S754_finite false (Z.to_pos mq) eq /\
    2 ^ 52 <= mq < 2 ^ 53 /\ -105 <= eq <= -52 /\ (eq = -52 -> mq = 2 ^ 52).
Proof.
  intros Hdm Hm.
  destruct (num_of_nat_spec d) as (M1 & e1 & -> & HM1 & He1 & E1 & B1); [lia|lia|].
  destruct (num_of_nat_spec m) as (M2 & e2 & -> & HM2 & He2 & E2 & B2); [lia|lia|].
  destruct (num_of_nat_mono d m M1 e1 M2 e2) as [Hle Heq]; try done; [lia|].
  destruct (SFdiv_normal M1 e1 M2 e2) as (mq & eq & Hres & Hmq & Hcases);
    [done|done|lia|lia|].
  exists mq, eq. split; [exact Hres|]. split; [done|].
  destruct Hcases as [[Hlt [->| [-> ->]]]|[Hge [[-> Hx]|(-> & -> & Hne)]]].
  - split; lia.
  - split; [lia|done].
  - split; [lia|]. intros He. apply Hx.
    assert (e1 = e2) as E by lia. specialize (Heq E). lia.
  - split; [|done].
    assert (e1 <> e2); [|lia]. intros E. specialize (Heq E). lia.
Qed.

Lemma num_sub_from_one mq eq :
  2 ^ 52 <= mq < 2 ^ 53 -> -148 <= eq <= -52 -> (eq = -52 -> mq = 2 ^ 52) ->
  unit_float (num_sub num_1 (S754_finite false (Z.to_pos mq) eq)).
Proof.
  intros Hmq Heq Hone.
  pose proof pow52 as P52. pose proof pow53 as P53.
  unfold num_sub, num_1, SFsub. cbv zeta.
  rewrite (Z.min_r (-52) eq) by lia.
  destruct (shl_align_spec (Z.to_pos mq) eq eq) as [_ ->]; [|lia].
  unfold cond_Zopp. change ((Z.to_pos mq, eq).1) with (Z.to_pos mq).
  rewrite Z2Pos.id by lia.
  destruct (Z.eq_dec eq (-52)) as [->|Hne].
  - rewrite (Hone eq_refl). simpl. by left.
  - destruct (shl_align_spec 4503599627370496 (-52) eq) as [-> _]; [|lia].
    cbv beta iota delta [fst]. rewrite Z2Pos.id.
    2:{ apply Z.mul_pos_pos; [lia|]. apply Z.pow_pos_nonneg; lia. }
    rewrite <- P52, <- Z.pow_add_r by lia.
    replace (52 + (-52 - eq)) with (- eq) by lia.
    assert (2 ^ 53 <= 2 ^ (- eq)) as Hpow by (apply Z.pow_le_mono_r; lia).
    destruct (2 ^ (- eq) - mq) as [|p|p] eqn:EM; try lia.
    simpl binary_normalize.
    assert (Zpos p < 2 ^ (- eq)) as Hp by lia.
    pose proof (Zdigits2_le (Zpos p) (- eq) ltac:(lia) Hp ltac:(lia)) as HP.
    simpl Zdigits2 in HP.
    destruct (binary_round_normal false p eq) as (m & e & -> & Hm & Hs).
    { pose proof (Pos2Z.is_pos (digits2_pos p)). lia. }
    right. exists m, e. split; [done|]. split; [done|].
    pose proof (Pos2Z.is_pos (digits2_pos p)).
    destruct Hs as [(_ & -> & _)|(_ & _ & [[-> _]|(-> & _ & _ & ->)])]; split; lia || done.
Qed.

(** The score of the edit-distance tier. *)
Lemma ratio_score_unit (d m : nat) :
  (1 <= d <= m)%nat -> Z.of_nat m < 2 ^ 53 ->
  unit_float (num_sub num_1 (num_div (num_of_nat d) (num_of_nat m))).
Proof.
  intros Hdm Hm.
  destruct (num_div_ratio d m Hdm Hm) as (mq & eq & -> & Hmq & Heq & Hone).
  apply num_sub_from_one; [done|lia|done].
Qed.

Lemma shl_align_fst m e ez :
  ez <= e -> Zpos (fst (shl_align m e ez)) = Zpos m * 2 ^ (e - ez).
Proof.
  intros H. destruct (Z.eq_dec ez e) as [->|Hne].
  - destruct (shl_align_spec m e e) as [_ ->]; [|lia].
    rewrite Z.sub_diag. simpl. lia.
  - destruct (shl_align_spec m e ez) as [-> _]; [|lia].
    cbv beta iota delta [fst]. rewrite Z2Pos.id; [done|].
    apply Z.mul_pos_pos; [lia|]. apply Z.pow_pos_nonneg; lia.
Qed.

Lemma binary_round_sign sx p e :
  -200 <= e -> Zpos (digits2_pos p) + e <= 1023 ->
  exists m' e', binary_round prec emax sx p e = S754_finite sx m' e'.
Proof.
  intros He Hd. pose proof (Pos2Z.is_pos (digits2_pos p)).
  destruct (binary_round_normal sx p e) as (m & e' & -> & _); [lia|].
  by eexists _, _.
Qed.

Lemma num_sub_sign x y :
  unit_float x -> unit_float y ->
  sign_of_number (num_sub y x) = Z.compare (rank y) (rank x).
Proof.
  pose proof pow52 as P52. pose proof pow53 as P53.
  intros [->|(mx & ex & -> & Hmx & Hex & _)] [->|(my & ey & -> & Hmy & Hey & _)].
  - done.
  - change (sign_of_number _) with Gt. change (rank (S754_zero false)) with 0.
    symmetry. apply Z.compare_gt_iff. unfold rank.
    apply Z.mul_pos_pos; [lia|]. apply Z.pow_pos_nonneg; lia.
  - change (sign_of_number _) with Lt. change (rank (S754_zero false)) with 0.
    symmetry. apply Z.compare_lt_iff. unfold rank.
    apply Z.mul_pos_pos; [lia|]. apply Z.pow_pos_nonneg; lia.
  - unfold num_sub, SFsub. cbv zeta. unfold cond_Zopp.
    set (ez := Z.min ey ex).
    rewrite !shl_align_fst by (unfold ez; lia).
    rewrite !Z2Pos.id by lia.
    unfold rank. rewrite !Z2Pos.id by lia.
    assert (0 < 2 ^ (ez + 200)) as Hz by (apply Z.pow_pos_nonneg; unfold ez; lia).
    assert (0 < 2 ^ (ey - ez)) as Hy by (apply Z.pow_pos_nonneg; unfold ez; lia).
    assert (0 < 2 ^ (ex - ez)) as Hx by (apply Z.pow_pos_nonneg; unfold ez; lia).
    assert (2 ^ (ey + 200) = 2 ^ (ey - ez) * 2 ^ (ez + 200)) as ->.
    { rewrite <- Z.pow_add_r by (unfold ez; lia). f_equal. lia. }
    assert (2 ^ (ex + 200) = 2 ^ (ex - ez) * 2 ^ (ez + 200)) as ->.
    { rewrite <- Z.pow_add_r by (unfold ez; lia). f_equal. lia. }
    assert (2 ^ 53 * 2 ^ (ey - ez) = 2 ^ (53 + ey - ez)) as Ey.
    { rewrite <- Z.pow_add_r by (unfold ez; lia). f_equal. lia. }
    assert (2 ^ 53 * 2 ^ (ex - ez) = 2 ^ (53 + ex - ez)) as Ex.
    { rewrite <- Z.pow_add_r by (unfold ez; lia). f_equal. lia. }
    set (a := my * 2 ^ (ey - ez)) in *. set (b := mx * 2 ^ (ex - ez)) in *.
    assert (0 < a < 2 ^ (53 + ey - ez)) as Ha by (unfold a; nia).
    assert (0 < b < 2 ^ (53 + ex - ez)) as Hb by (unfold b; nia).
    rewrite !Z.mul_assoc. fold a b.
    destruct (a - b) as [|p|p] eqn:EM; simpl binary_normalize.
    + change (sign_of_number _) with Eq. symmetry. apply Z.compare_eq_iff. f_equal. lia.
    + destruct (binary_round_sign false p ez) as (m' & e' & ->).
      { unfold ez; lia. }
      { pose proof (Zdigits2_le (Zpos p) (53 + ey - ez)) as Hd. simpl in Hd.
        unfold ez in *. lia. }
      change (sign_of_number _) with Gt. symmetry. apply Z.compare_gt_iff. nia.
    + destruct (binary_round_sign true p ez) as (m' & e' & ->).
      { unfold ez; lia. }
      { pose proof (Zdigits2_le (Zpos p) (53 + ex - ez)) as Hd. simpl in Hd.
        unfold ez in *. lia. }
      change (sign_of_number _) with Lt. symmetry. apply Z.compare_lt_iff. nia.
Qed.

Lemma SFcompare_unit x y :
  unit_float x -> unit_float y ->
  SFcompare x y = Some (Z.compare (rank x) (rank y)).
Proof.
  pose proof pow52 as P52. pose proof pow53 as P53.
  intros [->|(mx & ex & -> & Hmx & Hex & _)] [->|(my & ey & -> & Hmy & Hey & _)].
  - done.
  - change (SFcompare _ _) with (Some Lt). change (rank (S754_zero false)) with 0.
    f_equal. symmetry. apply Z.compare_lt_iff. unfold rank.
    apply Z.mul_pos_pos; [lia|]. apply Z.pow_pos_nonneg; lia.
  - change (SFcompare _ _) with (Some Gt). change (rank (S754_zero false)) with 0.
    f_equal. symmetry. apply Z.compare_gt_iff. unfold rank.
    apply Z.mul_pos_pos; [lia|]. apply Z.pow_pos_nonneg; lia.
  - unfold SFcompare, rank. f_equal. rewrite !Z2Pos.id by lia.
    assert (0 < 2 ^ (ex + 200)) as Hx by (apply Z.pow_pos_nonneg; lia).
    assert (0 < 2 ^ (ey + 200)) as Hy by (apply Z.pow_pos_nonneg; lia).
    destruct (Z.compare_spec ex ey) as [->|Hlt|Hgt].
    + change (Pos.compare_cont Eq (Z.to_pos mx) (Z.to_pos my))
        with (Z.compare (Zpos (Z.to_pos mx)) (Zpos (Z.to_pos my))).
      rewrite !Z2Pos.id by lia.
      destruct (Z.compare_spec mx my) as [->|H|H]; symmetry.
      * apply Z.compare_eq_iff. done.
      * apply Z.compare_lt_iff. nia.
      * apply Z.compare_gt_iff. nia.
    + symmetry. apply Z.compare_lt_iff.
      assert (2 * 2 ^ (ex + 200) <= 2 ^ (ey + 200)).
      { rewrite <- Z.pow_succ_r by lia. apply Z.pow_le_mono_r; lia. }
      nia.
    + symmetry. apply Z.compare_gt_iff.
      assert (2 * 2 ^ (ey + 200) <= 2 ^ (ex + 200)).
      { rewrite <- Z.pow_succ_r by lia. apply Z.pow_le_mono_r; lia. }
      nia.
Qed.

Lemma unit_float_num_1 : unit_float num_1.
Proof.
  right. exists (2 ^ 52), (-52). split; [reflexivity|].
  rewrite pow52, pow53. lia.
Qed.

Lemma unit_float_num_0_8 : unit_float num_0_8.
Proof.
  right. exists 7205759403792794, (-53). split; [reflexivity|].
  rewrite pow52, pow53. lia.
Qed.

Lemma unit_float_num_0_3 : unit_float num_0_3.
Proof.
  right. exists 5404319552844595, (-54). split; [reflexivity|].
  rewrite pow52, pow53. lia.
Qed.

Lemma unit_float_range x :
  unit_float x -> num_ge x num_0 = true /\ num_ge num_1 x = true.
Proof.
  intros Hx. unfold num_ge, SFleb.
  rewrite (SFcompare_unit num_0 x), (SFcompare_unit x num_1);
    try done; try (by left); try apply unit_float_num_1.
  change (rank num_0) with 0.
  change (rank num_1) with (2 ^ 52 * 2 ^ 148).
  destruct Hx as [->|(m & e & -> & Hm & He & Hone)].
  { done. }
  unfold rank. rewrite Z2Pos.id by (rewrite pow52 in Hm; lia).
  assert (0 < 2 ^ (e + 200)) as Hp by (apply Z.pow_pos_nonneg; lia).
  assert (m * 2 ^ (e + 200) <= 2 ^ 52 * 2 ^ 148) as Hle.
  { destruct (Z.eq_dec e (-52)) as [->|Hne].
    - rewrite (Hone eq_refl). done.
    - assert (2 * 2 ^ (e + 200) <= 2 ^ 148).
      { rewrite <- Z.pow_succ_r by lia. apply Z.pow_le_mono_r; lia. }
      rewrite pow52, pow53 in *. nia. }
  split.
  - destruct (Z.compare_spec 0 (m * 2 ^ (e + 200))); try done.
    rewrite pow52 in Hm. nia.
  - destruct (Z.compare_spec (m * 2 ^ (e + 200)) (2 ^ 52 * 2 ^ 148)); try done. lia.
Qed.

Lemma unit_float_num_eq x y :
  unit_float x -> unit_float y -> num_eq x y = true <-> rank x = rank y.
Proof.
  intros Hx Hy. unfold num_eq, SFeqb. rewrite (SFcompare_unit x y) by done.
  destruct (Z.compare_spec (rank x) (rank y)); split; done || lia.
Qed.

Lemma unit_float_num_ge x y :
  unit_float x -> unit_float y -> num_ge x y = true <-> rank y <= rank x.
Proof.
  intros Hx Hy. unfold num_ge, SFleb. rewrite (SFcompare_unit y x) by done.
  destruct (Z.compare_spec (rank y) (rank x)); split; done || lia.
Qed.

Lemma unit_float_gt_not_le x y :
  unit_float x -> unit_float y -> num_gt x y = true -> num_le x y = false.
Proof.
  intros Hx Hy. unfold num_gt, num_le, SFltb, SFleb.
  rewrite (SFcompare_unit y x), (SFcompare_unit x y) by done.
  destruct (Z.compare_spec (rank y) (rank x));
    destruct (Z.compare_spec (rank x) (rank y)); done || lia.
Qed.

(** ** White space *)

Lemma trimStart_nil s : trimStart s = [] <-> Forall (fun c => isWhiteSpace c = true) s.
Proof.
  induction s as [|c s IH]; simpl; [done|].
  destruct (isWhiteSpace c) eqn:E.
  - rewrite IH. split; [by constructor|]. by intros [_ ?]%Forall_cons.
  - split; [done|]. intros [? _]%Forall_cons. congruence.
Qed.

Lemma trimStart_head s c r : trimStart s = c :: r -> isWhiteSpace c = false.
Proof.
  induction s as [|c' s IH]; simpl; [done|].
  destruct (isWhiteSpace c') eqn:E; [done|]. by intros [= <- _].
Qed.

Lemma trim_nil s : trim s = [] <-> Forall (fun c => isWhiteSpace c = true) s.
Proof.
  unfold trim. rewrite <- trimStart_nil. split.
  - intros H. apply (f_equal reverse) in H. rewrite reverse_involutive in H.
    change (reverse []) with (@nil codeunit) in H.
    apply trimStart_nil in H. rewrite Forall_reverse in H.
    destruct (trimStart s) as [|c r] eqn:E; [done|].
    apply trimStart_head in E. apply Forall_cons in H as [? _]. congruence.
  - by intros ->.
Qed.

(** ** The similarity scorer *)

Section SimilarityFacts.

Variable toLowerCase : jsstring -> jsstring.

Lemma calculateSimilarity_unit str1 str2 :
  Z.of_nat (length (toLowerCase str1)) <= max_string_length ->
  Z.of_nat (length (toLowerCase str2)) <= max_string_length ->
  unit_float (calculateSimilarity toLowerCase str1 str2).
Proof.
  intros H1 H2. unfold calculateSimilarity.
  case_bool_decide as Hne; [apply unit_float_num_1|].
  destruct (includes _ _ || includes _ _); [apply unit_float_num_0_8|].
  destruct (Nat.eqb_spec (Nat.max (length (toLowerCase str1))
                            (length (toLowerCase str2))) 0) as [|Hmax];
    [apply unit_float_num_1|].
  rewrite editDistance_levenshtein.
  apply ratio_score_unit.
  - split; [|apply levenshtein_le_max].
    destruct (levenshtein (toLowerCase str1) (toLowerCase str2)) eqn:E; [|lia].
    by apply levenshtein_zero in E.
  - unfold max_string_length in *. lia.
Qed.

(** C8. The scorer is symmetric. *)
Theorem calculateSimilarity_symmetric str1 str2 :
  calculateSimilarity toLowerCase str1 str2
  = calculateSimilarity toLowerCase str2 str1.
Proof.
  unfold calculateSimilarity.
  rewrite !editDistance_levenshtein.
  rewrite (levenshtein_sym (toLowerCase str2)), (Nat.max_comm (length (toLowerCase str2))).
  rewrite (orb_comm (includes (toLowerCase str2) _)).
  repeat case_bool_decide; done || congruence.
Qed.

(** C4. The tiers of the scorer, first match first: equal case-folded
    strings score 1; otherwise, when one case-folded string occurs in the
    other, the score is 0.8; otherwise it is 1 - d / max(len s1, len s2)
    in double arithmetic, [d] being the Levenshtein distance of the
    case-folded strings (the cost of a cheapest script of unit-cost
    insertions, deletions and substitutions), which the matrix computes;
    the score is 1 when the longer length is 0; and the score lies in
    [0, 1] for strings of a length a string can have. *)
Theorem calculateSimilarity_tiers str1 str2 :
  let s1 := toLowerCase str1 in
  let s2 := toLowerCase str2 in
  let result := calculateSimilarity toLowerCase str1 str2 in
  (s1 = s2 -> result = num_1) /\
  (s1 <> s2 -> substring s2 s1 \/ substring s1 s2 -> result = num_0_8) /\
  (s1 <> s2 -> ~ substring s2 s1 -> ~ substring s1 s2 ->
   is_edit_distance s1 s2 (editDistance s1 s2) /\
   editDistance s1 s2 = levenshtein s1 s2 /\
   result = num_sub num_1
              (num_div (num_of_nat (levenshtein s1 s2))
                       (num_of_nat (Nat.max (length s1) (length s2))))) /\
  (Nat.max (length s1) (length s2) = 0%nat -> result = num_1) /\
  (Z.of_nat (length s1) <= max_string_length ->
   Z.of_nat (length s2) <= max_string_length ->
   num_ge result num_0 = true /\ num_ge num_1 result = true).
Proof.
  intros s1 s2 result.
  split; [|split; [|split; [|split]]].
  - intros E. unfold result, calculateSimilarity. fold s1 s2.
    by rewrite bool_decide_eq_true_2.
  - intros Hne Hsub. unfold result, calculateSimilarity. fold s1 s2.
    rewrite bool_decide_eq_false_2 by done.
    replace (includes s1 s2 || includes s2 s1) with true; [done|].
    symmetry. apply orb_true_iff.
    destruct Hsub as [H|H]; [left|right]; by apply includes_substring.
  - intros Hne Hn1 Hn2.
    split; [rewrite editDistance_levenshtein; apply levenshtein_is_edit_distance|].
    split; [apply editDistance_levenshtein|].
    unfold result, calculateSimilarity. fold s1 s2.
    rewrite bool_decide_eq_false_2 by done.
    replace (includes s1 s2 || includes s2 s1) with false.
    2:{ symmetry. apply orb_false_iff. split; apply not_true_is_false;
        by rewrite includes_substring. }
    destruct (Nat.eqb_spec (Nat.max (length s1) (length s2)) 0) as [Hz|_].
    { destruct s1, s2; simpl in Hz; done || lia. }
    by rewrite editDistance_levenshtein.
  - intros Hz. unfold result, calculateSimilarity. fold s1 s2.
    assert (s1 = s2) as -> by (destruct s1, s2; simpl in Hz; done || lia).
    by rewrite bool_decide_eq_true_2.
  - intros H1 H2. apply unit_float_range. by apply calculateSimilarity_unit.
Qed.

End SimilarityFacts.

Lemma filter_ext_Forall {A} (P1 P2 : A -> Prop)
    `{!forall x, Decision (P1 x)} `{!forall x, Decision (P2 x)} (l : list A) :
  Forall (fun x => P1 x <-> P2 x) l -> filter P1 l = filter P2 l.
Proof.
  induction 1 as [|x l Hx Hl IH]; [done|].
  rewrite !filter_cons, IH.
  destruct (decide (P1 x)), (decide (P2 x)); done || tauto.
Qed.

(** ** The fuzzy resolver *)

Section FuzzyFacts.

Variable toLowerCase : jsstring -> jsstring.

(** C9. A query that is empty or made of white space only yields the
    empty result. *)
Theorem fuzzyMatchProjects_blank_query projects searchTerm :
  Forall (fun c => isWhiteSpace c = true) searchTerm ->
  fuzzyMatchProjects toLowerCase projects searchTerm = [].
Proof.
  intros Hws. unfold fuzzyMatchProjects.
  rewrite bool_decide_eq_true_2; [done|]. by apply trim_nil.
Qed.

Lemma byScore_key (a b : ScoredMatch) :
  unit_float (score a) -> unit_float (score b) ->
  sign_of_number (num_sub (score b) (score a))
  = Z.compare (rank (score b)) (rank (score a)).
Proof. intros Ha Hb. by apply num_sub_sign. Qed.

(** C3. For a query with a code unit that is not white space, the
    resolver returns the scored candidates whose score exceeds 0.3 and no
    others, ordered by non-increasing score, candidates of equal score in
    the order of the input. *)
Theorem fuzzyMatchProjects_threshold_sorted_stable projects searchTerm :
  Exists (fun c => isWhiteSpace c = false) searchTerm ->
  Z.of_nat (length (toLowerCase searchTerm)) <= max_string_length ->
  Forall (fun p => Z.of_nat (length (toLowerCase (name p))) <= max_string_length)
    projects ->
  let scored :=
    map (fun p => {| project := p;
                     score := calculateSimilarity toLowerCase (name p) searchTerm |})
        projects in
  let passing := filter (fun m => num_gt (score m) num_0_3 = true) scored in
  let result := fuzzyMatchProjects toLowerCase projects searchTerm in
  result ≡ₚ passing /\
  (forall m, m ∈ result <->
     (exists p, p ∈ projects /\
        m = {| project := p;
               score := calculateSimilarity toLowerCase (name p) searchTerm |}) /\
     num_gt (score m) num_0_3 = true) /\
  (forall m, m ∈ result -> num_le (score m) num_0_3 = false) /\
  (forall i j a b, (i < j)%nat ->
     result !! i = Some a -> result !! j = Some b ->
     num_ge (score a) (score b) = true) /\
  (forall c, c ∈ passing ->
     filter (fun m => num_eq (score m) (score c) = true) result
     = filter (fun m => num_eq (score m) (score c) = true) passing).
Proof.
  intros Hq Hlq Hlp scored passing result.
  assert (result = Array_sort
            (fun a b => sign_of_number (num_sub (score b) (score a))) passing)
    as Hres.
  { unfold result, fuzzyMatchProjects. rewrite bool_decide_eq_false_2; [done|].
    rewrite trim_nil. intros Hall.
    apply Exists_exists in Hq as (c & Hc & Hn).
    eapply Forall_forall in Hall; [|exact Hc]. simpl in Hall. congruence. }
  assert (Forall (fun m => unit_float (score m)) scored) as Hunit.
  { unfold scored. apply List.Forall_map. eapply Forall_impl; [exact Hlp|].
    intros p Hp. simpl. by apply calculateSimilarity_unit. }
  assert (Forall (fun m => unit_float (score m)) passing) as Hunitp.
  { apply Forall_forall. intros m Hm. apply list_elem_of_filter in Hm as [_ Hm].
    eapply Forall_forall in Hunit; [exact Hunit|done]. }
  pose proof (Array_sort_perm
                (fun a b => sign_of_number (num_sub (score b) (score a))) passing)
    as Hperm.
  rewrite <- Hres in Hperm.
  assert (Forall (fun m => unit_float (score m)) result) as Hunitr.
  { by rewrite Hperm. }
  split; [done|]. split; [|split; [|split]].
  2:{ intros m Hm.
      apply unit_float_gt_not_le; [|apply unit_float_num_0_3|].
      - eapply Forall_forall in Hunitr; [exact Hunitr|done].
      - rewrite Hperm in Hm. by apply list_elem_of_filter in Hm as [Hm _]. }
  - intros m. rewrite Hperm. unfold passing. rewrite list_elem_of_filter.
    unfold scored. rewrite list_elem_of_In, in_map_iff. split.
    + intros [Hgt (p & <- & Hp)]. split; [|done]. exists p.
      by rewrite list_elem_of_In.
    + intros [(p & Hp & ->) Hgt]. split; [done|]. exists p.
      by rewrite <- list_elem_of_In.
  - intros i j a b Hij Ha Hb.
    pose proof (Array_sort_sorted
                  (fun a b => sign_of_number (num_sub (score b) (score a)))
                  (fun m => rank (score m)) (fun m => unit_float (score m))
                  byScore_key passing Hunitp) as Hs.
    rewrite <- Hres in Hs.
    pose proof (StronglySorted_lookup _ _ i j a b Hs Hij Ha Hb) as Hd.
    unfold descending in Hd.
    apply unit_float_num_ge; [| |done].
    + eapply Forall_forall in Hunitr; [exact Hunitr|].
      by eapply list_elem_of_lookup_2.
    + eapply Forall_forall in Hunitr; [exact Hunitr|].
      by eapply list_elem_of_lookup_2.
  - intros c Hc.
    assert (unit_float (score c)) as Huc.
    { eapply Forall_forall in Hunitp; [exact Hunitp|done]. }
    pose proof (Array_sort_stable
                  (fun a b => sign_of_number (num_sub (score b) (score a)))
                  (fun m => rank (score m)) (fun m => unit_float (score m))
                  byScore_key (rank (score c)) passing Hunitp) as Hst.
    rewrite <- Hres in Hst.
    assert (forall l, Forall (fun m => unit_float (score m)) l ->
              filter (fun m => num_eq (score m) (score c) = true) l
              = filter (fun m => rank (score m) = rank (score c)) l) as Hext.
    { intros l Hl. apply filter_ext_Forall. eapply Forall_impl; [exact Hl|].
      intros m Hm. simpl. by apply unit_float_num_eq. }
    rewrite !Hext; [done|done|]. by rewrite Hperm.
Qed.

End FuzzyFacts.

(** ** The scenarios of the specification, and instances of the theorems *)

Example scenario_sorted :
  map name (sortProjectsByDate scenario_projects)
  = [ js "My Test Algorithm"; js "Sample"; js "Another" ].
Proof. reflexivity. Qed.

(** The query "alg": "My Test Algorithm" contains it (0.8); "Sample" is
    four edits away over six code units, and [1 - 4/6] passes the threshold
    as well. *)
Example scenario_query_alg :
  fuzzyMatchProjects ascii_toLowerCase (sortProjectsByDate scenario_projects) (js "alg")
  = [ {| project := candidate "My Test Algorithm" 200; score := num_0_8 |};
      {| project := candidate "Sample" 100;
         score := num_sub num_1 (num_div (num_of_nat 4) (num_of_nat 6)) |} ].
Proof. vm_compute. reflexivity. Qed.

Example scenario_query_sample :
  fuzzyMatchProjects ascii_toLowerCase (sortProjectsByDate scenario_projects) (js "sample")
  = [ {| project := candidate "Sample" 100; score := num_1 |} ].
Proof. vm_compute. reflexivity. Qed.

Lemma sortProjectsByDate_stable_descending_witness :
  ({[ 0%nat := scenario_projects ]} : gmap nat (list ProjectInfo)) !! 0%nat
  = Some scenario_projects /\
  exists sorted h',
    sortProjectsByDate_ref {[ 0%nat := scenario_projects ]} 0 = Some (sorted, h') /\
    h' !! 0%nat = Some scenario_projects /\
    h' !! sorted = Some (sortProjectsByDate scenario_projects).
Proof.
  assert (({[ 0%nat := scenario_projects ]} : gmap nat (list ProjectInfo)) !! 0%nat
          = Some scenario_projects) as H by apply lookup_singleton_eq.
  split; [exact H|].
  destruct (sortProjectsByDate_stable_descending _ _ _ H)
    as (sorted & h' & Hrun & _ & _ & _ & Hin & Hout & _).
  exists sorted, h'. split; [exact Hrun|]. split; [exact Hin | exact Hout].
Defined.

Lemma getLatestProject_first_latest_witness :
  scenario_projects <> [] /\
  exists p before after,
    getLatestProject scenario_projects = Some p /\
    scenario_projects = before ++ p :: after /\
    Forall (fun q => modifiedTime q < modifiedTime p) before.
Proof.
  assert (scenario_projects <> []) as Hne by done.
  split; [exact Hne|].
  destruct (proj2 (getLatestProject_first_latest scenario_projects) Hne)
    as (p & before & after & Hp & Hsplit & _ & Hbefore).
  exists p, before, after. split; [exact Hp|]. split; [exact Hsplit | exact Hbefore].
Defined.

Example scenario_latest :
  getLatestProject scenario_projects = Some (candidate "My Test Algorithm" 200).
Proof. reflexivity. Qed.

Lemma calculateSimilarity_tiers_witness :
  Z.of_nat (length (ascii_toLowerCase (js "kitten"))) <= max_string_length /\
  Z.of_nat (length (ascii_toLowerCase (js "Sitting"))) <= max_string_length /\
  num_ge (calculateSimilarity ascii_toLowerCase (js "kitten") (js "Sitting")) num_0 = true /\
  num_ge num_1 (calculateSimilarity ascii_toLowerCase (js "kitten") (js "Sitting")) = true.
Proof.
  assert (Z.of_nat (length (ascii_toLowerCase (js "kitten"))) <= max_string_length)
    as H1 by (vm_compute; discriminate).
  assert (Z.of_nat (length (ascii_toLowerCase (js "Sitting"))) <= max_string_length)
    as H2 by (vm_compute; discriminate).
  split; [exact H1|]. split; [exact H2|].
  destruct (calculateSimilarity_tiers ascii_toLowerCase (js "kitten") (js "Sitting"))
    as (_ & _ & _ & _ & Hrange).
  exact (Hrange H1 H2).
Defined.

(** "kitten" and "sitting" are three edits apart: the score is the double
    [1 - 3/7]. *)
Example similarity_kitten_sitting :
  editDistance (js "kitten") (js "sitting") = 3%nat /\
  calculateSimilarity ascii_toLowerCase (js "kitten") (js "Sitting")
  = num_sub num_1 (num_div (num_of_nat 3) (num_of_nat 7)).
Proof. split; vm_compute; reflexivity. Qed.

Lemma fuzzyMatchProjects_blank_query_witness :
  Forall (fun c => isWhiteSpace c = true) (js "   ") /\
  fuzzyMatchProjects ascii_toLowerCase scenario_projects (js "   ") = [].
Proof.
  assert (Forall (fun c => isWhiteSpace c = true) (js "   ")) as H
    by (repeat constructor).
  split; [exact H|].
  exact (fuzzyMatchProjects_blank_query ascii_toLowerCase scenario_projects (js "   ") H).
Defined.

Lemma fuzzyMatchProjects_threshold_sorted_stable_witness :
  Exists (fun c => isWhiteSpace c = false) (js "alg") /\
  Z.of_nat (length (ascii_toLowerCase (js "alg"))) <= max_string_length /\
  Forall (fun p => Z.of_nat (length (ascii_toLowerCase (name p))) <= max_string_length)
    scenario_projects /\
  fuzzyMatchProjects ascii_toLowerCase scenario_projects (js "alg")
  ≡ₚ filter (fun m => num_gt (score m) num_0_3 = true)
       (map (fun p => {| project := p;
                         score := calculateSimilarity ascii_toLowerCase (name p) (js "alg") |})
            scenario_projects).
Proof.
  assert (Exists (fun c => isWhiteSpace c = false) (js "alg")) as H1
    by (apply Exists_cons_hd; reflexivity).
  assert (Z.of_nat (length (ascii_toLowerCase (js "alg"))) <= max_string_length)
    as H2 by (vm_compute; discriminate).
  assert (Forall (fun p => Z.of_nat (length (ascii_toLowerCase (name p)))
                           <= max_string_length) scenario_projects) as H3
    by (repeat constructor; vm_compute; discriminate).
  split; [exact H1|]. split; [exact H2|]. split; [exact H3|].
  exact (proj1 (fuzzyMatchProjects_threshold_sorted_stable
                  ascii_toLowerCase scenario_projects (js "alg") H1 H2 H3)).
Defined.

(** * More of the code: properties read off the source *)

(** ** Sorting twice *)

Lemma sortProjectsByDate_sorted l :
  StronglySorted (descending modifiedTime) (sortProjectsByDate l).
Proof.
  apply (Array_sort_sorted byDate modifiedTime (fun _ => True) byDate_key).
  apply Forall_trivial.
Qed.

Lemma sortProjectsByDate_classes t l :
  filter (fun p => modifiedTime p = t) (sortProjectsByDate l)
  = filter (fun p => modifiedTime p = t) l.
Proof.
  apply (Array_sort_stable byDate modifiedTime (fun _ => True) byDate_key).
  apply Forall_trivial.
Qed.

Lemma sortProjectsByDate_fixes_sorted l :
  StronglySorted (descending modifiedTime) l -> sortProjectsByDate l = l.
Proof.
  intros Hs. apply (stable_descending_unique modifiedTime); [|done|].
  - apply sortProjectsByDate_sorted.
  - intros t. apply sortProjectsByDate_classes.
Qed.

(** X1. Sorting by date is idempotent and keeps the number of projects;
    the latest project of the sorted list is the latest project of the
    list, so [runCommand], which sorts before it asks for the latest
    project, picks the same project as [getLatestProject] on the scan. *)
Theorem sortProjectsByDate_idempotent (projects : list ProjectInfo) :
  sortProjectsByDate (sortProjectsByDate projects) = sortProjectsByDate projects /\
  length (sortProjectsByDate projects) = length projects /\
  getLatestProject (sortProjectsByDate projects) = getLatestProject projects.
Proof.
  assert (sortProjectsByDate (sortProjectsByDate projects)
          = sortProjectsByDate projects) as Hidem.
  { apply sortProjectsByDate_fixes_sorted, sortProjectsByDate_sorted. }
  assert (length (sortProjectsByDate projects) = length projects) as Hlen.
  { apply Permutation_length, Array_sort_perm. }
  split; [done|]. split; [done|].
  unfold getLatestProject. by rewrite Hidem, Hlen.
Qed.

(** ** Page sizes *)

Section PaginatorMore.

Context {T : Type}.
Implicit Types its : list T.

(** X2. On a non-empty sequence every served page holds between one and
    [pageSize] items: a page before the last one is full, and the last
    page holds what is left. *)
Theorem paginateResults_page_length its (page pageSize : Z) :
  its <> [] -> 1 <= pageSize ->
  let pg := paginateResults its page pageSize in
  let n := Z.of_nat (length (items pg)) in
  1 <= n <= pageSize /\
  (currentPage pg < totalPages pg -> n = pageSize) /\
  (currentPage pg = totalPages pg ->
   n = totalItems pg - (totalPages pg - 1) * pageSize).
Proof.
  intros Hne Hp pg n.
  assert (1 <= Z.of_nat (length its)) as Hlen.
  { destruct its; [done|simpl; lia]. }
  pose proof (ceil_div_spec (Z.of_nat (length its)) pageSize Hp ltac:(lia)) as Hspec.
  pose proof (ceil_div_pos _ _ Hp Hlen) as Hpos.
  assert (1 <= currentPage pg <= totalPages pg) as Hrange.
  { subst pg. simpl. lia. }
  assert (items pg = take (Z.to_nat pageSize)
               (drop (Z.to_nat ((currentPage pg - 1) * pageSize)) its)) as Hitems.
  { subst pg. unfold paginateResults. simpl. simpl in Hrange.
    apply slice_window; nia. }
  assert (n = Z.min pageSize
                (Z.of_nat (length its) - (currentPage pg - 1) * pageSize)) as Hn.
  { unfold n. rewrite Hitems, length_take, length_drop.
    change (totalPages pg) with (ceil_div (Z.of_nat (length its)) pageSize) in Hrange.
    nia. }
  change (totalPages pg) with (ceil_div (Z.of_nat (length its)) pageSize) in *.
  change (totalItems pg) with (Z.of_nat (length its)).
  repeat split; nia.
Qed.

(** X3. Asking again for the page that was served gives the same page:
    the served page number is a fixed point of the clamp, also on the
    empty sequence. *)
Theorem paginateResults_served_again its (page pageSize : Z) :
  1 <= pageSize ->
  paginateResults its (currentPage (paginateResults its page pageSize)) pageSize
  = paginateResults its page pageSize.
Proof.
  intros Hp. unfold paginateResults. simpl.
  pose proof (ceil_div_spec (Z.of_nat (length its)) pageSize Hp ltac:(lia)) as Hspec.
  assert (0 <= ceil_div (Z.of_nat (length its)) pageSize) as H0 by nia.
  replace (Z.max (Z.max page 1 `min` ceil_div (Z.of_nat (length its)) pageSize) 1
             `min` ceil_div (Z.of_nat (length its)) pageSize)
    with (Z.max page 1 `min` ceil_div (Z.of_nat (length its)) pageSize) by lia.
  done.
Qed.

End PaginatorMore.

Lemma paginateResults_page_length_witness :
  seq 0 25 <> [] /\ 1 <= 10 /\
  Z.of_nat (length (items (paginateResults (seq 0 25) 3 10))) = 25 - (3 - 1) * 10.
Proof.
  assert (seq 0 25 <> []) as Hne by done.
  assert (1 <= 10) as Hp by lia.
  split; [done|]. split; [done|].
  destruct (paginateResults_page_length (seq 0 25) 3 10 Hne Hp) as (_ & _ & H).
  exact (H eq_refl).
Defined.

Lemma paginateResults_served_again_witness :
  1 <= 10 /\
  paginateResults (seq 0 25) (currentPage (paginateResults (seq 0 25) 1000 10)) 10
  = paginateResults (seq 0 25) 1000 10.
Proof.
  split; [lia|]. apply paginateResults_served_again. lia.
Defined.

(** ** The edit distance as a distance *)

Lemma edits_lengths s t n :
  edits s t n -> (length s <= length t + n /\ length t <= length s + n)%nat.
Proof. induction 1; simpl; lia. Qed.

(** Two scripts in a row make a script that costs no more than both. *)
Lemma edits_compose s t n :
  edits s t n -> forall u m, edits t u m ->
  exists k, (k <= n + m)%nat /\ edits s u k.
Proof.
  induction 1 as [|a s t n _ IH|b s t n _ IH|a b s t n _ IH|a s t n _ IH];
    intros u m H2.
  - by exists m.
  - destruct (IH u m H2) as (k & Hk & He).
    exists (S k). split; [lia|]. by constructor.
  - remember (b :: t) as t0 eqn:Et. revert t Et IH.
    induction H2 as [|x t1 u m H2 IH2|c t1 u m H2 IH2|x c t1 u m H2 IH2|x t1 u m H2 IH2];
      intros t Et IH.
    + done.
    + injection Et as -> ->.
      destruct (IH u m H2) as (k & Hk & He). exists k. split; [lia|done].
    + destruct (IH2 t Et IH) as (k & Hk & He).
      exists (S k). split; [lia|]. by constructor.
    + injection Et as -> ->. destruct (IH u m H2) as (k & Hk & He).
      exists (S k). split; [lia|]. by constructor.
    + injection Et as -> ->. destruct (IH u m H2) as (k & Hk & He).
      exists (S k). split; [lia|]. by constructor.
  - remember (b :: t) as t0 eqn:Et. revert t Et IH.
    induction H2 as [|x t1 u m H2 IH2|c t1 u m H2 IH2|x c t1 u m H2 IH2|x t1 u m H2 IH2];
      intros t Et IH.
    + done.
    + injection Et as -> ->. destruct (IH u m H2) as (k & Hk & He).
      exists (S k). split; [lia|]. by constructor.
    + destruct (IH2 t Et IH) as (k & Hk & He).
      exists (S k). split; [lia|]. by constructor.
    + injection Et as -> ->. destruct (IH u m H2) as (k & Hk & He).
      exists (S k). split; [lia|]. by constructor.
    + injection Et as -> ->. destruct (IH u m H2) as (k & Hk & He).
      exists (S k). split; [lia|]. by constructor.
  - remember (a :: t) as t0 eqn:Et. revert t Et IH.
    induction H2 as [|x t1 u m H2 IH2|c t1 u m H2 IH2|x c t1 u m H2 IH2|x t1 u m H2 IH2];
      intros t Et IH.
    + done.
    + injection Et as -> ->. destruct (IH u m H2) as (k & Hk & He).
      exists (S k). split; [lia|]. by constructor.
    + destruct (IH2 t Et IH) as (k & Hk & He).
      exists (S k). split; [lia|]. by constructor.
    + injection Et as -> ->. destruct (IH u m H2) as (k & Hk & He).
      exists (S k). split; [lia|]. by constructor.
    + injection Et as -> ->. destruct (IH u m H2) as (k & Hk & He).
      exists k. split; [lia|]. by constructor.
Qed.

Lemma levenshtein_refl s : levenshtein s s = 0%nat.
Proof.
  assert (edits s s 0) as H by (induction s; by constructor).
  apply levenshtein_least in H. lia.
Qed.

(** X4. The number the matrix ends with is a distance on strings: it is
    0 exactly between equal strings, symmetric, and obeys the triangle
    inequality. *)
Theorem editDistance_metric (s t u : jsstring) :
  (editDistance s t = 0%nat <-> s = t) /\
  editDistance s t = editDistance t s /\
  (editDistance s u <= editDistance s t + editDistance t u)%nat.
Proof.
  rewrite !editDistance_levenshtein. split; [|split].
  - split; [apply levenshtein_zero|]. intros ->. apply levenshtein_refl.
  - apply levenshtein_sym.
  - destruct (edits_compose s t _ (levenshtein_edits s t) u _ (levenshtein_edits t u))
      as (k & Hk & He).
    apply levenshtein_least in He. lia.
Qed.

(** X5. The distance is at least the difference of the lengths and at
    most the greater length, so the quotient the scorer takes is between
    0 and 1 before any rounding. *)
Theorem editDistance_bounds (s t : jsstring) :
  (length s - length t <= editDistance s t)%nat /\
  (length t - length s <= editDistance s t)%nat /\
  (editDistance s t <= Nat.max (length s) (length t))%nat.
Proof.
  rewrite !editDistance_levenshtein.
  pose proof (edits_lengths s t _ (levenshtein_edits s t)).
  pose proof (levenshtein_le_max s t). lia.
Qed.

(** ** The score 1 *)

(** [1 - q] is below 1 for a double [q] of (0, 1] that is at least
    [2^-53]. *)
Lemma num_sub_from_one_below mq eq :
  2 ^ 52 <= mq < 2 ^ 53 -> -105 <= eq <= -52 -> (eq = -52 -> mq = 2 ^ 52) ->
  num_sub num_1 (S754_finite false (Z.to_pos mq) eq) <> num_1.
Proof.
  intros Hmq Heq Hone.
  pose proof pow52 as P52. pose proof pow53 as P53.
  unfold num_sub, num_1, SFsub. cbv zeta.
  rewrite (Z.min_r (-52) eq) by lia.
  destruct (shl_align_spec (Z.to_pos mq) eq eq) as [_ ->]; [|lia].
  unfold cond_Zopp. change ((Z.to_pos mq, eq).1) with (Z.to_pos mq).
  rewrite Z2Pos.id by lia.
  destruct (Z.eq_dec eq (-52)) as [->|Hne].
  { rewrite (Hone eq_refl). simpl. done. }
  destruct (shl_align_spec 4503599627370496 (-52) eq) as [-> _]; [|lia].
  cbv beta iota delta [fst]. rewrite Z2Pos.id.
  2:{ apply Z.mul_pos_pos; [lia|]. apply Z.pow_pos_nonneg; lia. }
  rewrite <- P52, <- Z.pow_add_r by lia.
  replace (52 + (-52 - eq)) with (- eq) by lia.
  assert (2 ^ 53 <= 2 ^ (- eq)) as Hpow by (apply Z.pow_le_mono_r; lia).
  destruct (2 ^ (- eq) - mq) as [|p|p] eqn:EM; try lia.
  simpl binary_normalize.
  assert (Zpos p < 2 ^ (- eq)) as Hp by lia.
  pose proof (Zdigits2_le (Zpos p) (- eq) ltac:(lia) Hp ltac:(lia)) as HP.
  simpl Zdigits2 in HP.
  pose proof (Pos2Z.is_pos (digits2_pos p)) as HP0.
  destruct (binary_round_normal false p eq) as (m & e & -> & Hm & Hs); [lia|].
  set (P := Zpos (digits2_pos p)) in *.
  intros Hcontra. injection Hcontra as Hm1 He1.
  destruct Hs as [(_ & -> & _)|(HP53 & _ & [[-> _]|(-> & Hin & Ht & ->)])];
    try lia.
  assert (P = - eq) as EP by lia.
  apply negb_true_iff, Z.eqb_neq in Hin.
  assert (0 < 2 ^ (P - 53)) as Hpp by (apply Z.pow_pos_nonneg; lia).
  pose proof (Z.div_mod (Zpos p) (2 ^ (P - 53)) ltac:(lia)) as Hdm.
  pose proof (Z.mod_pos_bound (Zpos p) (2 ^ (P - 53)) Hpp) as Hmod.
  assert (2 ^ (- eq) = 2 ^ 53 * 2 ^ (P - 53)) as Hsplit.
  { rewrite <- Z.pow_add_r by lia. f_equal. lia. }
  assert (2 ^ (P - 53) <= 2 ^ 52) as Hsmall by (apply Z.pow_le_mono_r; lia).
  nia.
Qed.

Lemma ratio_score_below_one (d m : nat) :
  (1 <= d <= m)%nat -> Z.of_nat m < 2 ^ 53 ->
  num_sub num_1 (num_div (num_of_nat d) (num_of_nat m)) <> num_1.
Proof.
  intros Hdm Hm.
  destruct (num_div_ratio d m Hdm Hm) as (mq & eq & -> & Hmq & Heq & Hone).
  by apply num_sub_from_one_below.
Qed.

Section ScoreOne.

Variable toLowerCase : jsstring -> jsstring.

Lemma calculateSimilarity_eq_one (str1 str2 : jsstring) :
  Z.of_nat (length (toLowerCase str1)) <= max_string_length ->
  Z.of_nat (length (toLowerCase str2)) <= max_string_length ->
  calculateSimilarity toLowerCase str1 str2 = num_1 ->
  toLowerCase str1 = toLowerCase str2.
Proof.
  intros H1 H2. unfold calculateSimilarity.
  case_bool_decide as Hne; [done|].
  intros Hs. exfalso.
  destruct (includes _ _ || includes _ _); [done|].
  destruct (Nat.eqb_spec (Nat.max (length (toLowerCase str1))
                            (length (toLowerCase str2))) 0) as [Hz|Hmax].
  { destruct (toLowerCase str1), (toLowerCase str2); simpl in Hz; done || lia. }
  rewrite editDistance_levenshtein in Hs.
  revert Hs. apply ratio_score_below_one.
  - split; [|apply levenshtein_le_max].
    destruct (levenshtein (toLowerCase str1) (toLowerCase str2)) eqn:E; [|lia].
    by apply levenshtein_zero in E.
  - unfold max_string_length in *. lia.
Qed.

Lemma calculateSimilarity_folded_equal (str1 str2 : jsstring) :
  toLowerCase str1 = toLowerCase str2 ->
  calculateSimilarity toLowerCase str1 str2 = num_1.
Proof. intros E. unfold calculateSimilarity. by rewrite bool_decide_eq_true_2. Qed.

(** X6. For strings of a length a string can have, the score is 1
    exactly when the case-folded strings are equal: neither the
    containment tier nor the edit-distance tier ever reaches 1. In
    particular a string scores 1 against itself. *)
Theorem calculateSimilarity_one_iff (str1 str2 : jsstring) :
  Z.of_nat (length (toLowerCase str1)) <= max_string_length ->
  Z.of_nat (length (toLowerCase str2)) <= max_string_length ->
  (calculateSimilarity toLowerCase str1 str2 = num_1
   <-> toLowerCase str1 = toLowerCase str2) /\
  calculateSimilarity toLowerCase str1 str1 = num_1.
Proof.
  intros H1 H2. split.
  - split; [by apply calculateSimilarity_eq_one|].
    apply calculateSimilarity_folded_equal.
  - by apply calculateSimilarity_folded_equal.
Qed.

End ScoreOne.

Lemma calculateSimilarity_one_iff_witness :
  Z.of_nat (length (ascii_toLowerCase (js "Sample"))) <= max_string_length /\
  Z.of_nat (length (ascii_toLowerCase (js "SAMPLE"))) <= max_string_length /\
  calculateSimilarity ascii_toLowerCase (js "Sample") (js "SAMPLE") = num_1.
Proof.
  assert (Z.of_nat (length (ascii_toLowerCase (js "Sample"))) <= max_string_length)
    as H1 by (vm_compute; discriminate).
  assert (Z.of_nat (length (ascii_toLowerCase (js "SAMPLE"))) <= max_string_length)
    as H2 by (vm_compute; discriminate).
  split; [exact H1|]. split; [exact H2|].
  apply (proj1 (calculateSimilarity_one_iff ascii_toLowerCase _ _ H1 H2)).
  reflexivity.
Defined.

(** ** What the fuzzy resolver puts first *)

Lemma unit_float_not_gt x y :
  unit_float x -> unit_float y -> num_gt x y = false -> rank x <= rank y.
Proof.
  intros Hx Hy. unfold num_gt, SFltb. rewrite (SFcompare_unit y x) by done.
  destruct (Z.compare_spec (rank y) (rank x)); done || lia.
Qed.

Lemma unit_float_gt x y :
  unit_float x -> unit_float y -> num_gt x y = true -> rank y < rank x.
Proof.
  intros Hx Hy. unfold num_gt, SFltb. rewrite (SFcompare_unit y x) by done.
  destruct (Z.compare_spec (rank y) (rank x)); done || lia.
Qed.

Lemma unit_float_rank_one x :
  unit_float x -> rank num_1 <= rank x -> x = num_1.
Proof.
  pose proof pow52 as P52. pose proof pow53 as P53.
  change (rank num_1) with (2 ^ 52 * 2 ^ 148).
  intros [->|(m & e & -> & Hm & He & Hone)] Hr.
  { exfalso. change (rank (S754_zero false)) with 0 in Hr. lia. }
  unfold rank in Hr. rewrite Z2Pos.id in Hr by lia.
  destruct (Z.eq_dec e (-52)) as [->|Hne].
  { rewrite (Hone eq_refl). reflexivity. }
  exfalso.
  assert (0 < 2 ^ (e + 200)) as Hp by (apply Z.pow_pos_nonneg; lia).
  assert (2 * 2 ^ (e + 200) <= 2 ^ 148).
  { rewrite <- Z.pow_succ_r by lia. apply Z.pow_le_mono_r; lia. }
  nia.
Qed.

Lemma filter_fmap_cons_first {A B} (f : A -> B) (Q : B -> Prop)
    `{!forall b, Decision (Q b)} (l : list A) y rest :
  filter Q (map f l) = y :: rest ->
  exists l1 x l2, l = l1 ++ x :: l2 /\ f x = y /\ Forall (fun a => ~ Q (f a)) l1.
Proof.
  induction l as [|a l IH]; [done|]. simpl.
  rewrite filter_cons. destruct (decide (Q (f a))) as [Hq|Hq].
  - intros [= <- _]. by exists [], a, l.
  - intros Hf. destruct (IH Hf) as (l1 & x & l2 & -> & Hx & Hl1).
    exists (a :: l1), x, l2. split; [done|]. split; [done|]. by constructor.
Qed.

Section FuzzyFirst.

Variable toLowerCase : jsstring -> jsstring.

(** The scored candidates that pass the threshold, in input order. *)
Lemma fuzzyMatchProjects_unfold projects searchTerm :
  fuzzyMatchProjects toLowerCase projects searchTerm
  = if bool_decide (trim searchTerm = []) then []
    else Array_sort (fun a b => sign_of_number (num_sub (score b) (score a)))
           (filter (fun m => num_gt (score m) num_0_3 = true)
              (map (fun p => {| project := p;
                                score := calculateSimilarity toLowerCase (name p)
                                           searchTerm |}) projects)).
Proof. reflexivity. Qed.

(** X7. The resolver finds nothing exactly when the query is blank or no
    candidate scores above 0.3; this is when [runCommand] reports that no
    project matches. *)
Theorem fuzzyMatchProjects_nothing_iff projects searchTerm :
  fuzzyMatchProjects toLowerCase projects searchTerm = [] <->
  Forall (fun c => isWhiteSpace c = true) searchTerm \/
  Forall (fun p => num_gt (calculateSimilarity toLowerCase (name p) searchTerm)
                     num_0_3 = false) projects.
Proof.
  rewrite fuzzyMatchProjects_unfold. rewrite <- trim_nil.
  case_bool_decide as Ht; [tauto|].
  set (passing := filter _ _).
  assert (passing = [] <->
          Forall (fun p => num_gt (calculateSimilarity toLowerCase (name p) searchTerm)
                             num_0_3 = false) projects) as Hp.
  { unfold passing. clear. induction projects as [|p l IH]; simpl.
    { split; [constructor|done]. }
    rewrite filter_cons. case_decide as Hd; simpl in Hd.
    - split; [done|]. intros [? _]%Forall_cons. congruence.
    - rewrite IH. split.
      + intros Hl. constructor; [|done]. by apply not_true_is_false.
      + by intros [_ ?]%Forall_cons. }
  rewrite <- Hp. split.
  - intros Hs. right.
    apply Permutation_nil_r.
    etransitivity; [symmetry; apply (Array_sort_perm
      (fun a b : ScoredMatch => sign_of_number (num_sub (score b) (score a))))|].
    by rewrite Hs.
  - intros [? | ->]; [done|reflexivity].
Qed.

(** X8. The first match is a best one: it is a candidate of the input,
    it carries its score against the query, the score exceeds 0.3, and no
    candidate of the input scores higher. *)
Theorem fuzzyMatchProjects_best_first projects searchTerm best rest :
  Z.of_nat (length (toLowerCase searchTerm)) <= max_string_length ->
  Forall (fun p => Z.of_nat (length (toLowerCase (name p))) <= max_string_length)
    projects ->
  fuzzyMatchProjects toLowerCase projects searchTerm = best :: rest ->
  project best ∈ projects /\
  score best = calculateSimilarity toLowerCase (name (project best)) searchTerm /\
  num_gt (score best) num_0_3 = true /\
  forall p, p ∈ projects ->
    num_ge (score best) (calculateSimilarity toLowerCase (name p) searchTerm) = true.
Proof.
  intros Hlq Hlp. rewrite fuzzyMatchProjects_unfold.
  case_bool_decide as Ht; [done|].
  set (scored := map _ projects). set (passing := filter _ scored).
  set (cmp := fun a b : ScoredMatch => sign_of_number (num_sub (score b) (score a))).
  intros Hres.
  assert (Forall (fun m => unit_float (score m)) scored) as Hunit.
  { unfold scored. apply List.Forall_map. eapply Forall_impl; [exact Hlp|].
    intros p Hp. simpl. by apply calculateSimilarity_unit. }
  assert (Forall (fun m => unit_float (score m)) passing) as Hunitp.
  { apply Forall_forall. intros m Hm. apply list_elem_of_filter in Hm as [_ Hm].
    eapply Forall_forall in Hunit; [exact Hunit|done]. }
  pose proof (Array_sort_perm cmp passing) as Hperm. rewrite Hres in Hperm.
  pose proof (Array_sort_sorted cmp (fun m => rank (score m))
                (fun m => unit_float (score m)) byScore_key passing Hunitp) as Hs.
  rewrite Hres in Hs. apply StronglySorted_inv in Hs as [_ Hrest].
  assert (best ∈ passing) as Hin by (rewrite <- Hperm; by left).
  apply list_elem_of_filter in Hin as [Hgt Hin].
  unfold scored in Hin. rewrite list_elem_of_In, in_map_iff in Hin.
  destruct Hin as (p0 & <- & Hp0). simpl in *.
  split; [by rewrite list_elem_of_In|]. split; [done|]. split; [done|].
  intros p Hp.
  assert (unit_float (calculateSimilarity toLowerCase (name p0) searchTerm)) as U0.
  { eapply Forall_forall in Hlp; [|by apply list_elem_of_In].
    by apply calculateSimilarity_unit. }
  assert (unit_float (calculateSimilarity toLowerCase (name p) searchTerm)) as Up.
  { eapply Forall_forall in Hlp; [|exact Hp]. by apply calculateSimilarity_unit. }
  apply unit_float_num_ge; [done|done|].
  destruct (num_gt (calculateSimilarity toLowerCase (name p) searchTerm) num_0_3)
    eqn:Egt.
  - set (m := {| project := p;
                 score := calculateSimilarity toLowerCase (name p) searchTerm |}).
    assert (m ∈ passing) as Hm.
    { apply list_elem_of_filter. split; [done|].
      unfold scored. rewrite list_elem_of_In, in_map_iff. exists p.
      split; [done|]. by apply list_elem_of_In. }
    rewrite <- Hperm in Hm. apply elem_of_cons in Hm as [Hm|Hm].
    + apply (f_equal score) in Hm. simpl in Hm. rewrite Hm. lia.
    + eapply Forall_forall in Hrest; [|exact Hm].
      unfold descending in Hrest. simpl in Hrest. exact Hrest.
  - apply unit_float_not_gt in Egt; [|done|apply unit_float_num_0_3].
    apply unit_float_gt in Hgt; [|done|apply unit_float_num_0_3]. lia.
Qed.

(** X9. When a candidate's case-folded name equals the case-folded query,
    the first match is such a candidate with score 1, and it is the first
    of them in the input: nothing before it in the input is an exact
    match. *)
Theorem fuzzyMatchProjects_exact_first projects searchTerm exact :
  Exists (fun c => isWhiteSpace c = false) searchTerm ->
  Z.of_nat (length (toLowerCase searchTerm)) <= max_string_length ->
  Forall (fun p => Z.of_nat (length (toLowerCase (name p))) <= max_string_length)
    projects ->
  exact ∈ projects ->
  toLowerCase (name exact) = toLowerCase searchTerm ->
  exists best rest before after,
    fuzzyMatchProjects toLowerCase projects searchTerm = best :: rest /\
    score best = num_1 /\
    toLowerCase (name (project best)) = toLowerCase searchTerm /\
    projects = before ++ project best :: after /\
    Forall (fun p => toLowerCase (name p) <> toLowerCase searchTerm) before.
Proof.
  intros Hq Hlq Hlp Hex Hfold. rewrite fuzzyMatchProjects_unfold.
  rewrite bool_decide_eq_false_2.
  2:{ rewrite trim_nil. intros Hall.
      apply Exists_exists in Hq as (c & Hc & Hn).
      eapply Forall_forall in Hall; [|exact Hc]. simpl in Hall. congruence. }
  set (f := fun p => {| project := p;
                        score := calculateSimilarity toLowerCase (name p) searchTerm |}).
  set (scored := map f projects). set (passing := filter _ scored).
  set (cmp := fun a b : ScoredMatch => sign_of_number (num_sub (score b) (score a))).
  assert (Forall (fun m => unit_float (score m)) scored) as Hunit.
  { unfold scored. apply List.Forall_map. eapply Forall_impl; [exact Hlp|].
    intros p Hp. simpl. by apply calculateSimilarity_unit. }
  assert (Forall (fun m => unit_float (score m)) passing) as Hunitp.
  { apply Forall_forall. intros m Hm. apply list_elem_of_filter in Hm as [_ Hm].
    eapply Forall_forall in Hunit; [exact Hunit|done]. }
  pose proof (Array_sort_perm cmp passing) as Hperm.
  pose proof (Array_sort_sorted cmp (fun m => rank (score m))
                (fun m => unit_float (score m)) byScore_key passing Hunitp) as Hs.
  pose proof (Array_sort_stable cmp (fun m => rank (score m))
                (fun m => unit_float (score m)) byScore_key (rank num_1)
                passing Hunitp) as Hst.
  assert (f exact ∈ passing) as Hin.
  { apply list_elem_of_filter. split.
    - simpl. by rewrite calculateSimilarity_folded_equal.
    - unfold scored. rewrite list_elem_of_In, in_map_iff. exists exact.
      split; [done|]. by apply list_elem_of_In. }
  destruct (Array_sort cmp passing) as [|best rest] eqn:Eres.
  { rewrite <- Hperm in Hin. by apply elem_of_nil in Hin. }
  assert (Forall (fun m => unit_float (score m)) (best :: rest)) as Hunitr.
  { by rewrite Hperm. }
  apply Forall_cons in Hunitr as [Ub _].
  assert (score best = num_1) as Hone.
  { apply unit_float_rank_one; [done|].
    rewrite <- Hperm in Hin. apply elem_of_cons in Hin as [Hin|Hin].
    - rewrite <- Hin.
      change (score (f exact))
        with (calculateSimilarity toLowerCase (name exact) searchTerm).
      rewrite calculateSimilarity_folded_equal by done. reflexivity.
    - apply StronglySorted_inv in Hs as [_ Hrest].
      eapply Forall_forall in Hrest; [|exact Hin].
      unfold descending in Hrest.
      change (score (f exact))
        with (calculateSimilarity toLowerCase (name exact) searchTerm) in Hrest.
      rewrite calculateSimilarity_folded_equal in Hrest by done. exact Hrest. }
  rewrite filter_cons, decide_True in Hst by (by rewrite Hone).
  assert (filter (fun m => rank (score m) = rank num_1) passing
          = filter (fun m => rank (score m) = rank num_1) scored) as Hpass.
  { unfold passing. rewrite list_filter_filter. apply filter_ext_Forall.
    eapply Forall_impl; [exact Hunit|]. intros m Um. cbv beta. split; [tauto|].
    intros Hr. split; [done|].
    rewrite (unit_float_rank_one (score m)); [reflexivity|done|].
    rewrite Hr. reflexivity. }
  rewrite Hpass in Hst. symmetry in Hst. unfold scored in Hst.
  apply filter_fmap_cons_first in Hst as (before & x & after & Hsplit & Hx & Hbefore).
  exists best, rest, before, after. split; [done|]. split; [done|].
  assert (best ∈ passing) as Hbin by (rewrite <- Hperm; by left).
  apply list_elem_of_filter in Hbin as [_ Hbin].
  unfold scored in Hbin. rewrite list_elem_of_In, in_map_iff in Hbin.
  destruct Hbin as (p0 & Hp0 & Hp0in).
  assert (toLowerCase (name (project best)) = toLowerCase searchTerm) as Hbest.
  { rewrite <- Hp0 in Hone |- *. simpl in *.
    apply calculateSimilarity_eq_one; [|done|done].
    eapply Forall_forall in Hlp; [exact Hlp|]. by apply list_elem_of_In. }
  split; [done|]. split; [by rewrite <- Hx|].
  apply Forall_forall. intros p Hp Hp1.
  eapply Forall_forall in Hbefore; [|exact Hp]. apply Hbefore. simpl.
  by rewrite calculateSimilarity_folded_equal.
Qed.

End FuzzyFirst.

(** ** Listings *)

Lemma foldl_append_concat {A B} (g : A -> B -> jsstring) (l : list (A * B))
    (out : jsstring) :
  foldl (fun out '(i, x) => out ++ g i x) out l
  = out ++ concat (map (fun '(i, x) => g i x) l).
Proof.
  revert out. induction l as [|[i x] l IH]; intros out; simpl.
  - by rewrite app_nil_r.
  - by rewrite IH, app_assoc.
Qed.

Lemma imap_pair_map {A B} (g : nat -> A -> B) (l : list A) :
  map (fun '(i, x) => g i x) (imap pair l) = imap g l.
Proof.
  apply list_eq. intros i.
  rewrite list_lookup_fmap, !list_lookup_imap.
  by destruct (l !! i).
Qed.

Lemma paginateResults_empty_fields {T} (page pageSize : Z) :
  1 <= pageSize ->
  items (paginateResults (@nil T) page pageSize) = [] /\
  totalItems (paginateResults (@nil T) page pageSize) = 0 /\
  totalPages (paginateResults (@nil T) page pageSize) = 0 /\
  currentPage (paginateResults (@nil T) page pageSize) = 0.
Proof.
  intros Hp. unfold paginateResults. simpl.
  rewrite ceil_div_0 by done.
  split; [|split; [done|split; [done|lia]]].
  unfold slice. by rewrite drop_nil, take_nil.
Qed.

Section FormattingFacts.

Variable toISOString : Z -> jsstring.

(** X10. The listing of no project at all, for every requested page and
    every page size of at least one: the header counts 0 projects and
    reads "Page 0 of 0", and the only other line says that no projects
    were found. *)
Theorem formatPaginatedResults_empty (page pageSize : option Z) :
  1 <= default 10 pageSize ->
  formatPaginatedResults toISOString [] page pageSize
  = nl ++ js "=== Projects (0 total) ===" ++ nl
       ++ js "Page 0 of 0" ++ nl ++ nl
       ++ js "No projects found." ++ nl.
Proof.
  intros Hp. unfold formatPaginatedResults.
  destruct (paginateResults_empty_fields (T := ProjectInfo)
              (default 1 page) (default 10 pageSize) Hp) as (Hi & Hn & Ht & Hc).
  rewrite Hi, Hn, Ht, Hc. reflexivity.
Qed.

(** X11. The listing of a non-empty list, for a page size of at least
    one: after the header come the items of the served page, each behind
    its position in the whole list counted from 1, and the navigation
    hint closes the listing exactly when the projects do not fit on one
    page. *)
Theorem formatPaginatedResults_numbering projects (page pageSize : option Z) :
  projects <> [] -> 1 <= default 10 pageSize ->
  let size := default 10 pageSize in
  let pg := paginateResults projects (default 1 page) size in
  let start := (currentPage pg - 1) * size in
  formatPaginatedResults toISOString projects page pageSize
  = listingHeader (totalItems pg) (currentPage pg) (totalPages pg)
      ++ concat (imap (fun i p => show (start + Z.of_nat i + 1) ++ js ". "
                                    ++ projectLine toISOString p ++ nl)
                      (items pg))
      ++ (if decide (size < Z.of_nat (length projects))
          then navigationHint (totalPages pg) else []) /\
  (forall i p, items pg !! i = Some p ->
     0 <= start /\
     projects !! (Z.to_nat (start + Z.of_nat i)) = Some p) /\
  items pg <> [].
Proof.
  intros Hne Hp size pg start.
  assert (1 <= Z.of_nat (length projects)) as Hlen.
  { destruct projects; [done|simpl; lia]. }
  pose proof (ceil_div_spec (Z.of_nat (length projects)) size Hp ltac:(lia)) as Hspec.
  pose proof (ceil_div_pos _ _ Hp Hlen) as Hpos.
  assert (1 <= currentPage pg <= totalPages pg) as Hrange.
  { subst pg. simpl. lia. }
  assert (items pg = take (Z.to_nat size) (drop (Z.to_nat start) projects)) as Hitems.
  { subst pg start. unfold paginateResults. simpl. simpl in Hrange.
    apply slice_window; nia. }
  change (totalPages pg) with (ceil_div (Z.of_nat (length projects)) size) in Hrange.
  assert (0 <= start < Z.of_nat (length projects)) as Hstart.
  { unfold start. nia. }
  assert (items pg <> []) as Hitne.
  { rewrite Hitems. intros E. apply (f_equal length) in E.
    rewrite length_take, length_drop in E. simpl in E. lia. }
  split; [|split; [|done]].
  - unfold formatPaginatedResults. fold size pg.
    destruct (Nat.eqb_spec (length (items pg)) 0) as [E|_].
    { by destruct (items pg). }
    rewrite foldl_append_concat.
    replace (map (fun '(index, project) =>
                    itemLine toISOString (currentPage pg) size index project)
               (imap pair (items pg)))
      with (imap (fun i p => show (start + Z.of_nat i + 1) ++ js ". "
                               ++ projectLine toISOString p ++ nl) (items pg)).
    2:{ rewrite <- imap_pair_map. apply map_ext. by intros [i p]. }
    change (totalPages pg) with (ceil_div (Z.of_nat (length projects)) size).
    destruct (Z.ltb_spec 1 (ceil_div (Z.of_nat (length projects)) size)) as [H1|H1].
    + rewrite decide_True by nia. by rewrite <- app_assoc.
    + rewrite decide_False by nia. by rewrite app_nil_r.
  - intros i p Hi. split; [lia|]. rewrite Hitems in Hi.
    apply lookup_take_Some in Hi as [Hi _]. rewrite lookup_drop in Hi.
    rewrite <- Hi. f_equal. lia.
Qed.

(** X12. [formatProjectList] writes one line per project: when no name
    and no date holds a line feed, the text of a non-empty list has one
    line feed less than there are projects. *)
Theorem formatProjectList_lines (projects : list ProjectInfo) :
  Forall (fun p => (10%N ∉ name p) /\ (10%N ∉ modifiedDate toISOString p))
    projects ->
  projects <> [] ->
  S (length (filter (fun c => c = 10%N) (formatProjectList toISOString projects)))
  = length projects.
Proof.
  assert (forall p, 10%N ∉ name p -> 10%N ∉ modifiedDate toISOString p ->
            filter (fun c => c = 10%N) (projectLine toISOString p) = []) as Hline.
  { intros p Hn Hd. unfold projectLine. rewrite !filter_app.
    assert (forall s, 10%N ∉ s -> filter (fun c => c = 10%N) s = []) as Hno.
    { intros s Hs. induction s as [|c s IH]; [done|].
      rewrite filter_cons. apply not_elem_of_cons in Hs as [Hc Hs].
      rewrite decide_False by done. by apply IH. }
    rewrite (Hno _ Hn), (Hno _ Hd). reflexivity. }
  unfold formatProjectList.
  induction 1 as [|p l [Hn Hd] Hl IH]; intros Hne; [done|].
  destruct l as [|p' l].
  { simpl. by rewrite Hline. }
  change (joinLines (map (projectLine toISOString) (p :: p' :: l)))
    with (projectLine toISOString p ++ nl
            ++ joinLines (map (projectLine toISOString) (p' :: l))).
  rewrite !filter_app, Hline by done.
  change (filter (fun c => c = 10%N) nl) with nl.
  rewrite app_nil_l, length_app. change (length nl) with 1%nat.
  specialize (IH ltac:(done)).
  change (length (p :: p' :: l)) with (S (length (p' :: l))). lia.
Qed.

End FormattingFacts.

(** ** The scan behind the commands *)

Section ScanFacts.

Variable join : jsstring -> jsstring -> jsstring.

(** The scan is empty, or the root is set and enumerable and every
    [stat] succeeded. *)
Lemma getProjectsList_cases env fs :
  getProjectsList join env fs = [] \/
  exists projectsDir entries,
    env = Some projectsDir /\ projectsDir <> [] /\
    readdir fs projectsDir = Some entries /\
    mapM (withStats fs) (projectDirectories join projectsDir entries)
    = Some (getProjectsList join env fs).
Proof.
  destruct env as [[|c d]|]; [by left| |by left].
  unfold getProjectsList.
  destruct (readdir fs (c :: d)) as [entries|] eqn:Er; simpl; [|by left].
  destruct (mapM _ _) as [l|] eqn:Em; [|by left].
  right. by exists (c :: d), entries.
Qed.



(** X13. What a scan returns when it succeeds on a set root: every
    record is built from one directory entry, with [path] equal to the
    name, [fullPath] the root joined with the name, [relativePath]
    ["Projects"] joined with the name, and the modification time the
    [stat] of [fullPath] reports; [getProjectNames] then lists the names
    of the directory entries in enumeration order, or nothing when the
    scan failed. *)
Theorem getProjectsList_records projectsDir entries fs :
  readdir fs projectsDir = Some entries ->
  let scan := getProjectsList join (Some projectsDir) fs in
  Forall (fun p =>
            path p = name p /\
            fullPath p = join projectsDir (name p) /\
            relativePath p = join (js "Projects") (name p) /\
            stat fs (fullPath p) = Some {| mtime := modifiedTime p |} /\
            exists entry, entry ∈ entries /\ isDirectory entry = true /\
                          entry_name entry = name p) scan /\
  (getProjectNames join (Some projectsDir) fs = [] \/
   getProjectNames join (Some projectsDir) fs
   = map entry_name (filter (fun entry => isDirectory entry = true) entries)).
Proof.
  intros Hr scan.
  destruct (getProjectsList_cases (Some projectsDir) fs)
    as [Hnil|(d & es & [= <-] & Hne & Hr' & Hm)].
  { subst scan. unfold getProjectNames. rewrite Hnil. split; [constructor|by left]. }
  rewrite Hr in Hr'. injection Hr' as <-. fold scan in Hm.
  apply mapM_Some in Hm. split.
  - apply Forall_forall. intros p Hp.
    apply list_elem_of_lookup in Hp as [i Hi].
    destruct (Forall2_lookup_r _ _ _ _ _ Hm Hi) as (pd & Hpd & Hw).
    unfold withStats in Hw.
    destruct (stat fs (dir_fullPath pd)) as [[t]|] eqn:Es; [|done].
    simpl in Hw. injection Hw as <-. simpl.
    apply list_elem_of_lookup_2 in Hpd. unfold projectDirectories in Hpd.
    rewrite list_elem_of_In, in_map_iff in Hpd.
    destruct Hpd as (entry & <- & Hentry). simpl in *.
    rewrite <- list_elem_of_In in Hentry.
    apply list_elem_of_filter in Hentry as [Hdir Hentry].
    repeat split; try done. by exists entry.
  - right. unfold getProjectNames. fold scan.
    unfold projectDirectories in Hm.
    remember (filter (fun entry => isDirectory entry = true) entries) as dirs.
    clear -Hm. revert Hm. generalize scan. clear scan.
    induction dirs as [|e dirs IH]; intros scan Hm.
    + by apply Forall2_nil_inv_l in Hm as ->.
    + simpl in Hm. apply Forall2_cons_inv_l in Hm as (p & scan' & Hp & Hm & ->).
      simpl. f_equal; [|by apply IH].
      unfold withStats in Hp. simpl in Hp.
      destruct (stat fs _); [|done]. simpl in Hp. by injection Hp as <-.
Qed.

End ScanFacts.

Lemma getProjectsList_scenario :
  getProjectsList plain_join (Some (js "/p")) scenario_fs = scenario_projects.
Proof. vm_compute. reflexivity. Qed.

Lemma getProjectsList_records_witness :
  readdir scenario_fs (js "/p") = Some scenario_entries /\
  getProjectNames plain_join (Some (js "/p")) scenario_fs
  = [js "Sample"; js "My Test Algorithm"; js "Another"].
Proof.
  assert (readdir scenario_fs (js "/p") = Some scenario_entries) as Hr
    by reflexivity.
  split; [exact Hr|].
  destruct (getProjectsList_records plain_join _ _ scenario_fs Hr) as [_ [H|H]].
  - vm_compute in H. discriminate H.
  - exact H.
Defined.

(** ** The commands *)

Lemma sortProjectsByDate_elem p l : p ∈ sortProjectsByDate l <-> p ∈ l.
Proof. unfold sortProjectsByDate. by rewrite Array_sort_perm. Qed.



Section CommandFacts.

Variable join : jsstring -> jsstring -> jsstring.
Variable toISOString : Z -> jsstring.
Variable toLowerCase : jsstring -> jsstring.


Lemma fuzzyMatchProjects_elem projects searchTerm m :
  m ∈ fuzzyMatchProjects toLowerCase projects searchTerm ->
  project m ∈ projects /\
  score m = calculateSimilarity toLowerCase (name (project m)) searchTerm /\
  num_gt (score m) num_0_3 = true.
Proof.
  rewrite fuzzyMatchProjects_unfold. case_bool_decide; [by intros ?%elem_of_nil|].
  rewrite Array_sort_perm. intros [Hgt Hin]%list_elem_of_filter.
  rewrite list_elem_of_In, in_map_iff in Hin. destruct Hin as (p & <- & Hp).
  simpl. by rewrite list_elem_of_In.
Qed.



End CommandFacts.

(** ** Resolving a project by name *)

Lemma unit_float_gt_iff x y :
  unit_float x -> unit_float y -> num_gt x y = true <-> rank y < rank x.
Proof.
  intros Hx Hy. unfold num_gt, SFltb. rewrite (SFcompare_unit y x) by done.
  destruct (Z.compare_spec (rank y) (rank x)); split; done || lia.
Qed.

Lemma StronglySorted_middle {A} (R : A -> A -> Prop) l1 x l2 :
  StronglySorted R (l1 ++ x :: l2) -> Forall (R x) l2.
Proof.
  induction l1 as [|a l1 IH]; simpl; intros Hs.
  - by apply StronglySorted_inv in Hs as [_ ?].
  - apply StronglySorted_inv in Hs as [Hs _]. by apply IH.
Qed.

Section ByName.

Variable join : jsstring -> jsstring -> jsstring.
Variable toLowerCase : jsstring -> jsstring.

(** The first match is the first candidate of the input among those of
    the highest score. *)
Lemma fuzzyMatchProjects_head projects searchTerm best rest :
  Z.of_nat (length (toLowerCase searchTerm)) <= max_string_length ->
  Forall (fun p => Z.of_nat (length (toLowerCase (name p))) <= max_string_length)
    projects ->
  fuzzyMatchProjects toLowerCase projects searchTerm = best :: rest ->
  let sim p := calculateSimilarity toLowerCase (name p) searchTerm in
  exists before after,
    projects = before ++ project best :: after /\
    score best = sim (project best) /\
    rank num_0_3 < rank (score best) /\
    Forall (fun p => rank (sim p) < rank (score best)) before /\
    Forall (fun p => rank (sim p) <= rank (score best)) after.
Proof.
  intros Hlq Hlp. rewrite fuzzyMatchProjects_unfold.
  case_bool_decide as Ht; [done|].
  set (f := fun p => {| project := p;
                        score := calculateSimilarity toLowerCase (name p) searchTerm |}).
  set (scored := map f projects). set (passing := filter _ scored).
  set (cmp := fun a b : ScoredMatch => sign_of_number (num_sub (score b) (score a))).
  intros Hres sim.
  assert (forall p, p ∈ projects -> unit_float (sim p)) as Usim.
  { intros p Hp. eapply Forall_forall in Hlp; [|exact Hp].
    by apply calculateSimilarity_unit. }
  assert (Forall (fun m => unit_float (score m)) scored) as Hunit.
  { unfold scored. apply List.Forall_map. apply Forall_forall. intros p Hp.
    by apply Usim. }
  assert (Forall (fun m => unit_float (score m)) passing) as Hunitp.
  { apply Forall_forall. intros m Hm. apply list_elem_of_filter in Hm as [_ Hm].
    eapply Forall_forall in Hunit; [exact Hunit|done]. }
  pose proof (Array_sort_perm cmp passing) as Hperm. rewrite Hres in Hperm.
  pose proof (Array_sort_sorted cmp (fun m => rank (score m))
                (fun m => unit_float (score m)) byScore_key passing Hunitp) as Hs.
  pose proof (Array_sort_stable cmp (fun m => rank (score m))
                (fun m => unit_float (score m)) byScore_key (rank (score best))
                passing Hunitp) as Hst.
  rewrite Hres in Hs, Hst. apply StronglySorted_inv in Hs as [_ Hrest].
  rewrite filter_cons, decide_True in Hst by done.
  assert (best ∈ passing) as Hin by (rewrite <- Hperm; by left).
  assert (unit_float (score best)) as Ub.
  { eapply Forall_forall in Hunitp; [exact Hunitp|done]. }
  apply list_elem_of_filter in Hin as [Hgt _].
  apply unit_float_gt_iff in Hgt; [|done|apply unit_float_num_0_3].
  assert (forall p, p ∈ projects -> rank (sim p) <= rank (score best)) as Hmax.
  { intros p Hp.
    destruct (Z.le_gt_cases (rank (sim p)) (rank num_0_3)) as [?|Hp3]; [lia|].
    assert (f p ∈ passing) as Hm.
    { apply list_elem_of_filter. split.
      - apply unit_float_gt_iff; [by apply Usim|apply unit_float_num_0_3|done].
      - unfold scored. rewrite list_elem_of_In, in_map_iff. exists p.
        split; [done|]. by apply list_elem_of_In. }
    rewrite <- Hperm in Hm. apply elem_of_cons in Hm as [Hm|Hm].
    - rewrite <- Hm. change (score (f p)) with (sim p). lia.
    - eapply Forall_forall in Hrest; [|exact Hm]. exact Hrest. }
  unfold passing in Hst. rewrite list_filter_filter in Hst.
  symmetry in Hst. unfold scored in Hst.
  apply filter_fmap_cons_first in Hst as (before & x & after & Hsplit & Hx & Hbefore).
  subst best. change (score (f x)) with (sim x) in *.
  change (project (f x)) with x.
  exists before, after.
  split; [done|]. split; [done|]. split; [done|]. split.
  - apply Forall_forall. intros p Hp.
    assert (p ∈ projects) as Hpin.
    { rewrite Hsplit. apply elem_of_app. by left. }
    eapply Forall_forall in Hbefore; [|exact Hp]. cbv beta in Hbefore.
    change (score (f p)) with (sim p) in Hbefore.
    specialize (Hmax p Hpin).
    destruct (Z.eq_dec (rank (sim p)) (rank (sim x))) as [E|E]; [|lia].
    exfalso. apply Hbefore. split; [done|].
    apply unit_float_gt_iff; [by apply Usim|apply unit_float_num_0_3|].
    rewrite E. exact Hgt.
  - apply Forall_forall. intros p Hp. apply Hmax.
    rewrite Hsplit. apply elem_of_app. right. by right.
Qed.

(** X17. Without [--latest] and with a project name, [runCommand]
    reports that nothing matches when no project of the scan scores above
    0.3 against the name; otherwise it starts a project of the scan whose
    score exceeds 0.3 and is the highest of the scan, and among the
    projects of that same score it is one of the most recently modified:
    the resolver runs on the list sorted by date and its sort is
    stable. *)
Theorem runCommand_by_name env fs (options : RunCommandOptions) q :
  flag_set (latest options) = false ->
  projectName options = Some q -> q <> [] ->
  Z.of_nat (length (toLowerCase q)) <= max_string_length ->
  let scan := getProjectsList join env fs in
  let sim p := calculateSimilarity toLowerCase (name p) q in
  Forall (fun p => Z.of_nat (length (toLowerCase (name p))) <= max_string_length)
    scan ->
  (Forall (fun p => num_gt (sim p) num_0_3 = false) scan ->
   runCommand join toLowerCase env fs options = ([error_no_match q], None)) /\
  (forall log process,
     runCommand join toLowerCase env fs options = (log, Some process) ->
     exists t, t ∈ scan /\ process = bunProcess options t /\
       last log = Some (log_running (name t)) /\
       num_gt (sim t) num_0_3 = true /\
       forall p, p ∈ scan ->
         num_ge (sim t) (sim p) = true /\
         (sim p = sim t -> modifiedTime p <= modifiedTime t)).
Proof.
  intros Hl Hq Hne Hlq scan sim Hlp. unfold runCommand. fold scan.
  rewrite Hl, Hq. destruct q as [|c q']; [done|]. clear Hne.
  set (q := c :: q') in *. change (string_set (Some q)) with true. cbv iota.
  change (default [] (Some q)) with q.
  assert (Forall (fun p => Z.of_nat (length (toLowerCase (name p))) <= max_string_length)
            (sortProjectsByDate scan)) as Hlps.
  { apply Forall_forall. intros p Hp. rewrite sortProjectsByDate_elem in Hp.
    eapply Forall_forall in Hlp; [exact Hlp|done]. }
  destruct (fuzzyMatchProjects toLowerCase (sortProjectsByDate scan) q)
    as [|best rest] eqn:E; split.
  - done.
  - done.
  - intros Hnone. exfalso.
    assert (best ∈ fuzzyMatchProjects toLowerCase (sortProjectsByDate scan) q)
      as Hb by (rewrite E; by left).
    apply fuzzyMatchProjects_elem in Hb as (Hb & Hs & Hgt).
    rewrite sortProjectsByDate_elem in Hb.
    eapply Forall_forall in Hnone; [|exact Hb]. simpl in Hnone.
    unfold sim in Hnone. congruence.
  - intros log process [= <- <-].
    destruct (fuzzyMatchProjects_head _ _ _ _ Hlq Hlps E)
      as (before & after & Hsplit & Hs & Hgt & Hbefore & Hafter).
    rewrite Hs in Hgt, Hbefore, Hafter.
    set (t := project best) in *. subst sim. cbv beta in *.
    assert (t ∈ scan) as Ht.
    { rewrite <- sortProjectsByDate_elem, Hsplit. apply elem_of_app. right. by left. }
    assert (forall p, p ∈ scan ->
              unit_float (calculateSimilarity toLowerCase (name p) q)) as Usim.
    { intros p Hp. eapply Forall_forall in Hlp; [|exact Hp].
      by apply calculateSimilarity_unit. }
    exists t. split; [done|]. split; [done|]. split; [by rewrite last_snoc|].
    split. { apply unit_float_gt_iff; [by apply Usim|apply unit_float_num_0_3|done]. }
    intros p Hp.
    assert (p ∈ before \/ p = t \/ p ∈ after) as Hwhere.
    { rewrite <- sortProjectsByDate_elem, Hsplit in Hp.
      apply elem_of_app in Hp as [?|Hp]; [by left|].
      apply elem_of_cons in Hp as [?|?]; [right; by left|right; by right]. }
    pose proof (sortProjectsByDate_sorted scan) as Hsorted. rewrite Hsplit in Hsorted.
    apply StronglySorted_middle in Hsorted.
    split.
    + apply unit_float_num_ge; [by apply Usim|by apply Usim|].
      destruct Hwhere as [Hw|[->|Hw]]; [|lia|].
      * eapply Forall_forall in Hbefore; [|exact Hw]. cbv beta in Hbefore. lia.
      * eapply Forall_forall in Hafter; [|exact Hw]. exact Hafter.
    + intros Heq. destruct Hwhere as [Hw|[->|Hw]]; [|lia|].
      * eapply Forall_forall in Hbefore; [|exact Hw]. cbv beta in Hbefore.
        rewrite Heq in Hbefore. lia.
      * eapply Forall_forall in Hsorted; [|exact Hw]. exact Hsorted.
Qed.

End ByName.

(** ** The argument check of the [run] command *)

Section RunCheck.

Variable join : jsstring -> jsstring -> jsstring.
Variable toLowerCase : jsstring -> jsstring.

(** [runCommand] asks for an option only when neither is set. *)
Lemma runCommand_need_option env fs (options : RunCommandOptions) :
  error_need_option ∈ (runCommand join toLowerCase env fs options).1 ->
  flag_set (latest options) = false /\ string_set (projectName options) = false.
Proof.
  unfold runCommand. set (sorted := sortProjectsByDate _).
  destruct (flag_set (latest options)).
  { destruct (getLatestProject sorted); simpl.
    - intros [?|?%elem_of_nil]%elem_of_cons; done.
    - intros [?|?%elem_of_nil]%elem_of_cons; done. }
  destruct (string_set (projectName options)); [|done].
  destruct (fuzzyMatchProjects _ _ _) as [|best rest]; simpl fst.
  { intros [?|?%elem_of_nil]%elem_of_cons; done. }
  intros [Hlog|[?|?%elem_of_nil]%elem_of_cons]%elem_of_app; try done.
  exfalso. destruct (1 <? _)%nat; [|by apply elem_of_nil in Hlog].
  apply elem_of_cons in Hlog as [?|Hlog]; [done|].
  apply elem_of_app in Hlog as [Hlog|[?|?%elem_of_nil]%elem_of_cons]; try done.
  apply elem_of_lookup_imap_1 in Hlog as (i & m & ? & _). done.
Qed.

(** X18. Outside completion, the check of the [run] command accepts the
    arguments exactly when one of [--latest] and a non-empty
    [--project-name] is given and not the other; the handler then never
    reaches the error of [runCommand] that asks for one of the two. *)
Theorem runCheck_one_mode (argv : RunArgv) :
  getYargsCompletions argv = false ->
  (runCheck argv = check_true <->
   xorb (argv_latest argv) (string_set (argv_projectName argv)) = true) /\
  (runCheck argv = check_true ->
   forall env fs,
     error_need_option ∉ (runCommand join toLowerCase env fs (runOptions argv)).1).
Proof.
  intros Hc.
  assert (runCheck argv = check_true <->
          xorb (argv_latest argv) (string_set (argv_projectName argv)) = true) as Hiff.
  { unfold runCheck. rewrite Hc.
    destruct (argv_latest argv), (string_set (argv_projectName argv)); simpl;
      split; done. }
  split; [exact Hiff|].
  intros Hok env fs Hin. apply Hiff in Hok.
  apply runCommand_need_option in Hin as [Hl Hn]. simpl in Hl, Hn.
  rewrite Hl, Hn in Hok. done.
Qed.

End RunCheck.

Lemma runCheck_one_mode_witness :
  getYargsCompletions {| getYargsCompletions := false; argv_latest := true;
                         argv_projectName := None; argv_args := [] |} = false /\
  runCheck {| getYargsCompletions := false; argv_latest := true;
              argv_projectName := None; argv_args := [] |} = check_true.
Proof.
  split; [reflexivity|].
  apply (proj1 (runCheck_one_mode plain_join ascii_toLowerCase
                  {| getYargsCompletions := false; argv_latest := true;
                     argv_projectName := None; argv_args := [] |} eq_refl)).
  reflexivity.
Defined.

(** ** The scenario, end to end *)

Lemma scenario_lengths :
  Forall (fun p => Z.of_nat (length (ascii_toLowerCase (name p))) <= max_string_length)
    scenario_projects.
Proof. repeat constructor; vm_compute; discriminate. Defined.

Lemma fuzzyMatchProjects_best_first_witness :
  Z.of_nat (length (ascii_toLowerCase (js "alg"))) <= max_string_length /\
  fuzzyMatchProjects ascii_toLowerCase scenario_projects (js "alg")
  = [ {| project := candidate "My Test Algorithm" 200; score := num_0_8 |};
      {| project := candidate "Sample" 100;
         score := num_sub num_1 (num_div (num_of_nat 4) (num_of_nat 6)) |} ] /\
  num_gt num_0_8 num_0_3 = true.
Proof.
  assert (Z.of_nat (length (ascii_toLowerCase (js "alg"))) <= max_string_length)
    as H1 by (vm_compute; discriminate).
  assert (fuzzyMatchProjects ascii_toLowerCase scenario_projects (js "alg")
          = [ {| project := candidate "My Test Algorithm" 200; score := num_0_8 |};
              {| project := candidate "Sample" 100;
                 score := num_sub num_1 (num_div (num_of_nat 4) (num_of_nat 6)) |} ])
    as H2 by (vm_compute; reflexivity).
  split; [exact H1|]. split; [exact H2|].
  exact (proj1 (proj2 (proj2 (fuzzyMatchProjects_best_first ascii_toLowerCase
                                scenario_projects (js "alg") _ _ H1 scenario_lengths H2)))).
Defined.

Lemma fuzzyMatchProjects_exact_first_witness :
  Exists (fun c => isWhiteSpace c = false) (js "SAMPLE") /\
  Z.of_nat (length (ascii_toLowerCase (js "SAMPLE"))) <= max_string_length /\
  candidate "Sample" 100 ∈ scenario_projects /\
  ascii_toLowerCase (name (candidate "Sample" 100)) = ascii_toLowerCase (js "SAMPLE") /\
  exists best rest before after,
    fuzzyMatchProjects ascii_toLowerCase scenario_projects (js "SAMPLE") = best :: rest /\
    score best = num_1 /\
    ascii_toLowerCase (name (project best)) = ascii_toLowerCase (js "SAMPLE") /\
    scenario_projects = before ++ project best :: after /\
    Forall (fun p => ascii_toLowerCase (name p) <> ascii_toLowerCase (js "SAMPLE")) before.
Proof.
  assert (Exists (fun c => isWhiteSpace c = false) (js "SAMPLE")) as H0
    by (apply Exists_cons_hd; reflexivity).
  assert (Z.of_nat (length (ascii_toLowerCase (js "SAMPLE"))) <= max_string_length)
    as H1 by (vm_compute; discriminate).
  assert (candidate "Sample" 100 ∈ scenario_projects) as H2 by (by left).
  assert (ascii_toLowerCase (name (candidate "Sample" 100))
          = ascii_toLowerCase (js "SAMPLE")) as H3 by reflexivity.
  split; [exact H0|]. split; [exact H1|]. split; [exact H2|]. split; [exact H3|].
  exact (fuzzyMatchProjects_exact_first ascii_toLowerCase scenario_projects
           (js "SAMPLE") _ H0 H1 scenario_lengths H2 H3).
Defined.

Lemma formatPaginatedResults_empty_witness :
  1 <= default 10 None /\
  formatPaginatedResults fixed_toISOString [] (Some 3) None
  = nl ++ js "=== Projects (0 total) ===" ++ nl
       ++ js "Page 0 of 0" ++ nl ++ nl
       ++ js "No projects found." ++ nl.
Proof.
  assert (1 <= default 10 None) as Hp by (vm_compute; discriminate).
  split; [exact Hp|].
  exact (formatPaginatedResults_empty fixed_toISOString (Some 3) None Hp).
Defined.

Lemma formatPaginatedResults_numbering_witness :
  (scenario_projects <> []) /\
  1 <= default 10 (Some 2) /\
  formatPaginatedResults fixed_toISOString scenario_projects (Some 2) (Some 2)
  = nl ++ js "=== Projects (3 total) ===" ++ nl
       ++ js "Page 2 of 2" ++ nl ++ nl
       ++ js "3. Another (Modified: 2024-05-01)" ++ nl
       ++ nl ++ js "Use --page <number> to navigate (1-2)" ++ nl.
Proof.
  assert (scenario_projects <> []) as Hne by done.
  assert (1 <= default 10 (Some 2)) as Hp by (vm_compute; discriminate).
  split; [exact Hne|]. split; [exact Hp|].
  rewrite (proj1 (formatPaginatedResults_numbering fixed_toISOString
                    scenario_projects (Some 2) (Some 2) Hne Hp)).
  vm_compute. reflexivity.
Defined.

Lemma formatProjectList_lines_witness :
  Forall (fun p => (10%N ∉ name p) /\ (10%N ∉ modifiedDate fixed_toISOString p))
    scenario_projects /\
  (scenario_projects <> []) /\
  formatProjectList fixed_toISOString scenario_projects
  = js "Sample (Modified: 2024-05-01)" ++ nl
      ++ js "My Test Algorithm (Modified: 2024-05-01)" ++ nl
      ++ js "Another (Modified: 2024-05-01)" /\
  length (filter (fun c => c = 10%N)
            (formatProjectList fixed_toISOString scenario_projects)) = 2%nat.
Proof.
  assert (Forall (fun p => (10%N ∉ name p) /\ (10%N ∉ modifiedDate fixed_toISOString p))
            scenario_projects) as Hnl.
  { repeat constructor; apply (bool_decide_unpack _); vm_compute; exact I. }
  assert (scenario_projects <> []) as Hne by done.
  split; [exact Hnl|]. split; [exact Hne|]. split; [reflexivity|].
  pose proof (formatProjectList_lines fixed_toISOString scenario_projects Hnl Hne) as H.
  exact (Nat.succ_inj _ 2%nat H).
Defined.



Lemma runCommand_by_name_witness :
  flag_set (latest scenario_options) = false /\
  projectName scenario_options = Some (js "alg") /\
  (js "alg" <> []) /\
  Z.of_nat (length (ascii_toLowerCase (js "alg"))) <= max_string_length /\
  Forall (fun p => Z.of_nat (length (ascii_toLowerCase (name p))) <= max_string_length)
    (getProjectsList plain_join (Some (js "/p")) scenario_fs) /\
  runCommand plain_join ascii_toLowerCase (Some (js "/p")) scenario_fs scenario_options
  = ([ log_multiple (js "alg");
       log_alternative 1 (js "My Test Algorithm") num_0_8;
       log_alternative 2 (js "Sample")
         (num_sub num_1 (num_div (num_of_nat 4) (num_of_nat 6)));
       log_using_closest (js "My Test Algorithm");
       log_running (js "My Test Algorithm") ],
     Some {| command := js "bun";
             spawn_args := [js "/p/My Test Algorithm/index.ts"];
             cwd := js "/p/My Test Algorithm" |}) /\
  exists t, t ∈ (getProjectsList plain_join (Some (js "/p")) scenario_fs) /\
    cwd (bunProcess scenario_options t) = js "/p/My Test Algorithm" /\
    num_gt (calculateSimilarity ascii_toLowerCase (name t) (js "alg")) num_0_3 = true.
Proof.
  assert (js "alg" <> []) as Hne by done.
  assert (Z.of_nat (length (ascii_toLowerCase (js "alg"))) <= max_string_length)
    as Hlq by (vm_compute; discriminate).
  assert (Forall (fun p => Z.of_nat (length (ascii_toLowerCase (name p)))
                           <= max_string_length) (getProjectsList plain_join (Some (js "/p")) scenario_fs)) as Hlp.
  { rewrite getProjectsList_scenario. exact scenario_lengths. }
  assert (runCommand plain_join ascii_toLowerCase (Some (js "/p")) scenario_fs scenario_options
          = ([ log_multiple (js "alg");
               log_alternative 1 (js "My Test Algorithm") num_0_8;
               log_alternative 2 (js "Sample")
                 (num_sub num_1 (num_div (num_of_nat 4) (num_of_nat 6)));
               log_using_closest (js "My Test Algorithm");
               log_running (js "My Test Algorithm") ],
             Some {| command := js "bun";
                     spawn_args := [js "/p/My Test Algorithm/index.ts"];
                     cwd := js "/p/My Test Algorithm" |})) as Hrun
    by (vm_compute; reflexivity).
  split; [reflexivity|]. split; [reflexivity|]. split; [exact Hne|].
  split; [exact Hlq|]. split; [exact Hlp|]. split; [exact Hrun|].
  destruct (proj2 (runCommand_by_name plain_join ascii_toLowerCase (Some (js "/p"))
                     scenario_fs scenario_options (js "alg") eq_refl eq_refl Hne Hlq Hlp)
                  _ _ Hrun) as (t & Ht & Hproc & _ & Hgt & _).
  exists t. split; [exact Ht|]. split; [by rewrite <- Hproc|]. exact Hgt.
Defined.
